(** * CSS++ : the tokenizer and the recursive-descent parser of [CSS.h]

    A shallow embedding of [CSS::Parser] (and of its nested [Lexer]) together
    with the properties of the parsing pipeline: what the tokenizer produces
    for hex colours and strings, how [match] moves the cursor, how
    declarations are stored, and when [parse] returns. *)

From Stdlib Require Import NArith Ascii String Bool Lia.
From stdpp Require Import base option list strings gmap fin_maps.

Local Open Scope string_scope.
Local Open Scope N_scope.

(** ** Outcomes of a call

    A call either returns, or raises [std::out_of_range] (the only exception
    the code can raise: [std::vector::at] and [std::string::substr]), or is
    still running when the fuel given to its loops is used up.  Every member
    function of [Parser] is declared [noexcept]: an [OutOfRange] that reaches
    it ends the program through [std::terminate]. *)

Inductive result (A : Type) : Type :=
| Ok (a : A)
| OutOfRange
| OutOfFuel.

Arguments Ok {A} a.
Arguments OutOfRange {A}.
Arguments OutOfFuel {A}.

(** Calls on an object whose fields they update: a state monad over
    [result]. *)
Definition M (St A : Type) : Type := St -> result (A * St).

Definition ret {St A : Type} (a : A) : M St A := fun s => Ok (a, s).

Definition bind {St A B : Type} (c : M St A) (k : A -> M St B) : M St B :=
  fun s =>
    match c s with
    | Ok (a, s') => k a s'
    | OutOfRange => OutOfRange
    | OutOfFuel => OutOfFuel
    end.

Definition get {St : Type} : M St St := fun s => Ok (s, s).
Definition modify {St : Type} (f : St -> St) : M St unit := fun s => Ok (tt, f s).
Definition lift {St A : Type} (r : result A) : M St A :=
  fun s =>
    match r with
    | Ok a => Ok (a, s)
    | OutOfRange => OutOfRange
    | OutOfFuel => OutOfFuel
    end.

Notation "'let*' x ':=' c 'in' k" := (bind c (fun x => k))
  (at level 10, x name, c at level 100, k at level 200).

(** ** [size_t]

    A [size_t] is kept as an [N] below [2^64].  A [std::string] or
    [std::vector] holds fewer than [2^64] elements and every increment of a
    cursor in the source is guarded by [position < size], so increments are
    written [+ 1]; the subtractions can go below zero and wrap. *)

Definition SIZE_MAX : N := 2 ^ 64 - 1.

Definition size_t_sub (a b : N) : N := (a + 2 ^ 64 - b mod 2 ^ 64) mod 2 ^ 64.

(** ** Characters: [<cctype>] in the "C" locale

    A character is its code, from 0 to 255; no code above 127 is in any
    class. *)

Definition code (c : ascii) : N := N_of_ascii c.

Definition isspace (c : ascii) : bool :=
  (code c =? 32) || ((9 <=? code c) && (code c <=? 13)).

Definition isdigit (c : ascii) : bool := (48 <=? code c) && (code c <=? 57).

Definition isalpha (c : ascii) : bool :=
  ((65 <=? code c) && (code c <=? 90)) || ((97 <=? code c) && (code c <=? 122)).

Definition isalnum (c : ascii) : bool := isalpha c || isdigit c.

(** The double quote character. *)
Definition dquote : ascii := ascii_of_N 34.

(** ** [std::string] *)

Definition ssize (s : string) : N := N.of_nat (String.length s).

(** [s[i]]; the character at [s.size()] reads as ['\0']. *)
Definition char_at (s : string) (i : N) : ascii :=
  default zero (String.get (N.to_nat i) s).

(** The characters of [s] from index [i] on. *)
Fixpoint string_drop (i : nat) (s : string) : string :=
  match i, s with
  | O, _ => s
  | S i', EmptyString => EmptyString
  | S i', String _ s' => string_drop i' s'
  end.

Fixpoint string_take (n : nat) (s : string) : string :=
  match n, s with
  | O, _ => EmptyString
  | S n', EmptyString => EmptyString
  | S n', String c s' => String c (string_take n' s')
  end.

(** [s.substr(pos, count)]: raises [std::out_of_range] when [pos > size()],
    and otherwise yields [min(count, size() - pos)] characters. *)
Definition substr (s : string) (pos count : N) : result string :=
  if ssize s <? pos then OutOfRange
  else Ok (string_take (N.to_nat (N.min count (ssize s - pos)))
                       (string_drop (N.to_nat pos) s)).

(** ** Tokens *)

Module TokenType.
Inductive t : Set :=
| Identifier
| Number
| String
| Colon
| Semicolon
| BraceOpen
| BraceClose
| HexColor
| Unknown
| EndOfFile.

Definition eqb (a b : t) : bool :=
  match a, b with
  | Identifier, Identifier | Number, Number | String, String
  | Colon, Colon | Semicolon, Semicolon | BraceOpen, BraceOpen
  | BraceClose, BraceClose | HexColor, HexColor | Unknown, Unknown
  | EndOfFile, EndOfFile => true
  | _, _ => false
  end.
End TokenType.

Record Token : Set := mkToken { type : TokenType.t; value : string }.

(** [v.push_back(x)], [v.emplace_back(...)] *)
Definition push_back {A : Type} (v : list A) (x : A) : list A := (v ++ [x])%list.

(** ** The lexer *)

Module Lexer.

Record t : Set := mk { input : string; position : N }.

Definition set_position (n : N) (l : t) : t := mk (input l) n.

(** The part of the input the cursor has not passed: its first character
    is [input[position]], and it is empty exactly when
    [position >= input.size()]. *)
Definition rest (l : t) : string := string_drop (N.to_nat (position l)) (input l).

Definition peek (offset : N) (l : t) : ascii :=
  if position l + offset <? ssize (input l)
  then char_at (input l) (position l + offset)
  else zero.

(** [while (position < input.size() && test(input[position])) position++;]
    run over the unread characters [unread], [input[position]] being the
    first of them. *)
Fixpoint scan_while (test : ascii -> bool) (unread : string) (position : N) : N :=
  match unread with
  | EmptyString => position
  | String c unread' =>
      if test c then scan_while test unread' (position + 1) else position
  end.

Definition while_char (test : ascii -> bool) : M t unit :=
  modify (fun l => set_position (scan_while test (rest l) (position l)) l).

(** [while (position < input.size() && !(input[position] == '*' && peek() == '/')) position++;] *)
Fixpoint scan_comment (unread : string) (position : N) : N :=
  match unread with
  | EmptyString => position
  | String c unread' =>
      if Ascii.eqb c "*" && Ascii.eqb (char_at unread' 0) "/"
      then position
      else scan_comment unread' (position + 1)
  end.

Definition lexIdentifier : M t Token :=
  let* l0 := get in
  let start := position l0 in
  let* _ := while_char (fun c => isalnum c || Ascii.eqb c "-") in
  let* l := get in
  let* text := lift (substr (input l) start (size_t_sub (position l) start)) in
  ret (mkToken TokenType.Identifier text).

Definition lexNumber : M t Token :=
  let* l0 := get in
  let start := position l0 in
  let* _ := while_char isdigit in
  let* l := get in
  let* text := lift (substr (input l) start (size_t_sub (position l) start)) in
  ret (mkToken TokenType.Number text).

Definition lexHexColor : M t Token :=
  let* _ := modify (fun l => set_position (position l + 1) l) in
  let* l0 := get in
  let start := position l0 in
  let* _ := while_char (fun c => negb (Ascii.eqb c ";")) in
  let* l := get in
  if negb (size_t_sub (position l) start =? 6)
  then ret (mkToken TokenType.Unknown "<InvalidColor>")
  else
    let* text := lift (substr (input l) start (size_t_sub (position l) start)) in
    ret (mkToken TokenType.HexColor text).

Definition lexString : M t Token :=
  let* _ := modify (fun l => set_position (position l + 1) l) in
  let* l0 := get in
  let start := position l0 in
  let* _ := while_char (fun c => negb (Ascii.eqb c dquote)) in
  let* l1 := get in
  let* _ := (if position l1 <? ssize (input l1)
             then modify (fun l => set_position (position l + 1) l)
             else ret tt) in
  let* l := get in
  let* text :=
    lift (substr (input l) start (size_t_sub (size_t_sub (position l) start) 1)) in
  ret (mkToken TokenType.String text).

(** One turn of the loop of [tokenize] at a cursor inside the input:
    the branch taken for [currentChar], which appends at most one token. *)
Definition tokenize_step (tokens : list Token) : M t (list Token) :=
  let* l := get in
  let currentChar := char_at (input l) (position l) in
  if isspace currentChar then
    let* _ := while_char isspace in
    ret tokens
  else if isalpha currentChar || Ascii.eqb currentChar "-" then
    let* tok := lexIdentifier in
    ret (push_back tokens tok)
  else if isdigit currentChar then
    let* tok := lexNumber in
    ret (push_back tokens tok)
  else if Ascii.eqb currentChar dquote then
    let* tok := lexString in
    ret (push_back tokens tok)
  else if Ascii.eqb currentChar ":" then
    let* _ := modify (fun l => set_position (position l + 1) l) in
    ret (push_back tokens (mkToken TokenType.Colon ":"))
  else if Ascii.eqb currentChar ";" then
    let* _ := modify (fun l => set_position (position l + 1) l) in
    ret (push_back tokens (mkToken TokenType.Semicolon ";"))
  else if Ascii.eqb currentChar "{" then
    let* _ := modify (fun l => set_position (position l + 1) l) in
    ret (push_back tokens (mkToken TokenType.BraceOpen "{"))
  else if Ascii.eqb currentChar "}" then
    let* _ := modify (fun l => set_position (position l + 1) l) in
    ret (push_back tokens (mkToken TokenType.BraceClose "}"))
  else if Ascii.eqb currentChar "#" then
    let* tok := lexHexColor in
    ret (push_back tokens tok)
  else if Ascii.eqb currentChar "/" && Ascii.eqb (peek 1 l) "*" then
    let* _ := modify (fun l => set_position (position l + 2) l) in
    let* _ := modify (fun l => set_position (scan_comment (rest l) (position l)) l) in
    let* l' := get in
    let* _ := (if position l' <? ssize (input l')
               then modify (fun l => set_position (position l + 2) l)
               else ret tt) in
    ret tokens
  else
    let* _ := modify (fun l => set_position (position l + 1) l) in
    ret (push_back tokens (mkToken TokenType.Unknown (String currentChar EmptyString))).

(** [while (position < input.size()) { ... }] followed by the
    [EndOfFile] token; [fuel] bounds the number of turns. *)
Fixpoint tokenize_loop (fuel : nat) (tokens : list Token) : M t (list Token) :=
  let* l := get in
  if position l <? ssize (input l) then
    match fuel with
    | O => fun _ => OutOfFuel
    | S fuel' =>
        let* tokens' := tokenize_step tokens in
        tokenize_loop fuel' tokens'
    end
  else ret (push_back tokens (mkToken TokenType.EndOfFile "")).

(** Every turn moves the cursor forward, so the loop takes at most
    [input.size()] turns (see [tokenize_returns]). *)
Definition tokenize : M t (list Token) :=
  let* l := get in
  tokenize_loop (String.length (input l)) [].

End Lexer.

(** ** The data model *)

Abbreviation PropertyTable := (gmap string string).
Abbreviation Stylesheet := (gmap string PropertyTable).

Record ParseError : Set := mkParseError { errMsg : string; errLine : string }.

(** [stylesheet[selector][property] = value]: [operator[]] creates the
    selector's table when the selector is new, then the property is inserted
    or assigned. *)
Definition store (selector property val : string) (stylesheet : Stylesheet)
  : Stylesheet :=
  <[selector := <[property := val]> (default ∅ (stylesheet !! selector))]> stylesheet.

(** ** The parser *)

Module Parser.

Record t : Type := mk {
  lexer : Lexer.t;
  tokens : list Token;
  stylesheet : Stylesheet;
  position : N;
  hadError : bool;
  lastError : ParseError
}.

Definition set_position (n : N) (p : t) : t :=
  mk (lexer p) (tokens p) (stylesheet p) n (hadError p) (lastError p).

Definition set_stylesheet (s : Stylesheet) (p : t) : t :=
  mk (lexer p) (tokens p) s (position p) (hadError p) (lastError p).

(** [tokens.at(i)] *)
Definition at_ (v : list Token) (i : N) : result Token :=
  if i <? N.of_nat (length v)
  then match v !! N.to_nat i with
       | Some tok => Ok tok
       | None => OutOfRange
       end
  else OutOfRange.

(** The constructor: the whole input is tokenized first. *)
Definition new (css : string) : result t :=
  match Lexer.tokenize (Lexer.mk css 0) with
  | Ok (toks, lx) => Ok (mk lx toks ∅ 0 false (mkParseError "" ""))
  | OutOfRange => OutOfRange
  | OutOfFuel => OutOfFuel
  end.

Definition makeError (msg : string) : M t unit :=
  modify (fun p =>
    mk (lexer p) (tokens p) (stylesheet p) (position p) true
       (mkParseError msg (Lexer.input (lexer p)))).

Definition isAtEnd : M t bool :=
  let* p := get in
  if N.of_nat (length (tokens p)) <=? position p then ret true
  else
    let* tok := lift (at_ (tokens p) (position p)) in
    ret (TokenType.eqb (type tok) TokenType.EndOfFile).

Definition advance : M t Token :=
  let* e := isAtEnd in
  let* _ := (if negb e then modify (fun p => set_position (position p + 1) p)
             else ret tt) in
  let* p := get in
  lift (at_ (tokens p) (size_t_sub (position p) 1)).

Definition peek : M t Token :=
  let* p := get in
  lift (at_ (tokens p) (position p)).

Definition match_ (ty : TokenType.t) : M t bool :=
  let* e := isAtEnd in
  if e then ret false
  else
    let* tok := peek in
    if negb (TokenType.eqb (type tok) ty) then ret false
    else
      let* _ := advance in
      ret true.

(** [a or b] on calls: [b] runs only when [a] returned false. *)
Definition orM (a b : M t bool) : M t bool :=
  let* x := a in
  if x then ret true else b.

Definition parseSelector : M t string :=
  let* m := match_ TokenType.Identifier in
  if m then
    let* p := get in
    let* tok := lift (at_ (tokens p) (size_t_sub (position p) 1)) in
    ret (value tok)
  else ret "".

Definition parseValue : M t string :=
  let* m := orM (match_ TokenType.Number)
           (orM (match_ TokenType.String)
           (orM (match_ TokenType.Identifier)
                (match_ TokenType.HexColor))) in
  if m then
    let* p := get in
    let* tok := lift (at_ (tokens p) (size_t_sub (position p) 1)) in
    ret (value tok)
  else
    let* _ := makeError "Expected a value after '<property>:'." in
    ret "".

Definition parseDeclaration (selector : string) : M t unit :=
  let* m1 := match_ TokenType.Identifier in
  let* _ := (if negb m1 then makeError "Expected property name." else ret tt) in
  let* p := get in
  let* tok := lift (at_ (tokens p) (size_t_sub (position p) 1)) in
  let property := value tok in
  let* m2 := match_ TokenType.Colon in
  let* _ := (if negb m2 then makeError "Expected ':' after property name."
             else ret tt) in
  let* val := parseValue in
  let* m3 := match_ TokenType.Semicolon in
  let* _ := (if negb m3 then makeError "Expected ';' after property value."
             else ret tt) in
  modify (fun p => set_stylesheet (store selector property val (stylesheet p)) p).

(** [while (peek().type != TokenType::BraceClose and !isAtEnd())]; [fuel]
    bounds the number of turns. *)
Fixpoint parseDeclarationBlock (fuel : nat) (selector : string) : M t unit :=
  let* tok := peek in
  let* again :=
    (if negb (TokenType.eqb (type tok) TokenType.BraceClose)
     then let* e := isAtEnd in ret (negb e)
     else ret false) in
  if again then
    match fuel with
    | O => fun _ => OutOfFuel
    | S fuel' =>
        let* _ := parseDeclaration selector in
        parseDeclarationBlock fuel' selector
    end
  else ret tt.

Definition parseRule (fuel : nat) : M t unit :=
  let* selector := parseSelector in
  let* m1 := match_ TokenType.BraceOpen in
  let* _ := (if negb m1 then makeError "Expected '{' after selector."
             else ret tt) in
  let* _ := parseDeclarationBlock fuel selector in
  let* m2 := match_ TokenType.BraceClose in
  if negb m2 then makeError "Expected '}' after declaration block."
  else ret tt.

(** [while (!isAtEnd() && !hadError) parseRule();]; [fuel] bounds the
    number of turns of this loop and of each declaration-block loop. *)
Fixpoint parse (fuel : nat) : M t unit :=
  let* e := isAtEnd in
  let* p := get in
  if negb e && negb (hadError p) then
    match fuel with
    | O => fun _ => OutOfFuel
    | S fuel' =>
        let* _ := parseRule fuel' in
        parse fuel'
    end
  else ret tt.

Definition getStylesheet (p : t) : Stylesheet := stylesheet p.

End Parser.

(** [Parser parser(css); parser.parse();] *)
Definition run (fuel : nat) (css : string) : result Parser.t :=
  match Parser.new css with
  | Ok p =>
      match Parser.parse fuel p with
      | Ok (_, p') => Ok p'
      | OutOfRange => OutOfRange
      | OutOfFuel => OutOfFuel
      end
  | OutOfRange => OutOfRange
  | OutOfFuel => OutOfFuel
  end.

(** The parser built from [css], for texts the tokenizer accepts (all of
    them: see [tokenize_returns]). *)
Definition parser_of (css : string) : Parser.t :=
  match Parser.new css with
  | Ok p => p
  | _ => Parser.mk (Lexer.mk css 0) [] ∅ 0 false (mkParseError "" "")
  end.

(** ** Reading a parser state *)

(** The token under the cursor, when the cursor is inside the vector. *)
Definition current (p : Parser.t) : option Token :=
  Parser.tokens p !! N.to_nat (Parser.position p).

(** The cursor is past the vector or on the [EndOfFile] token. *)
Definition at_end (p : Parser.t) : bool :=
  match current p with
  | Some tok => TokenType.eqb (type tok) TokenType.EndOfFile
  | None => true
  end.

(** The current token has type [ty] and is not the end-of-input marker. *)
Definition expected_here (ty : TokenType.t) (p : Parser.t) : bool :=
  match current p with
  | Some tok =>
      TokenType.eqb (type tok) ty
      && negb (TokenType.eqb (type tok) TokenType.EndOfFile)
  | None => false
  end.

(** ** Reading an input text *)

(** The longest prefix of [s] whose characters all pass [test]. *)
Fixpoint take_while (test : ascii -> bool) (s : string) : string :=
  match s with
  | EmptyString => EmptyString
  | String c s' => if test c then String c (take_while test s') else EmptyString
  end.

(** The candidate body of a colour whose pound sign is at [position]: the
    characters after the pound sign and before the next [';'], or up to the
    end of the input when no [';'] follows. *)
Definition color_body (input : string) (position : N) : string :=
  take_while (fun c => negb (Ascii.eqb c ";"))
             (string_drop (N.to_nat (position + 1)) input).

(** The body of a string whose opening quote is at [position]: the
    characters after it and before the next double quote, or up to the end
    of the input when the string is not closed. *)
Definition string_body (input : string) (position : N) : string :=
  take_while (fun c => negb (Ascii.eqb c dquote))
             (string_drop (N.to_nat (position + 1)) input).

(** The string opened at [position] has its closing quote. *)
Definition string_closed (input : string) (position : N) : bool :=
  position + 1 + ssize (string_body input position) <? ssize input.

(** The token made of a candidate body. *)
Definition color_token (body : string) : Token :=
  if (String.length body =? 6)%nat
  then mkToken TokenType.HexColor body
  else mkToken TokenType.Unknown "<InvalidColor>".

(** ** Parser states after a step *)

(** The state with the cursor one token further. *)
Definition advanced (p : Parser.t) : Parser.t :=
  Parser.set_position (Parser.position p + 1) p.

(** The state once [makeError(msg)] has run. *)
Definition flagged (msg : string) (p : Parser.t) : Parser.t :=
  Parser.mk (Parser.lexer p) (Parser.tokens p) (Parser.stylesheet p)
            (Parser.position p) true
            (mkParseError msg (Lexer.input (Parser.lexer p))).

(** The state after [if (!match(ty)) { makeError(msg); }]. *)
Definition after_expect (ty : TokenType.t) (msg : string) (p : Parser.t) : Parser.t :=
  if expected_here ty p then advanced p else flagged msg p.

(** The current token is one that [parseValue] accepts. *)
Definition is_value (p : Parser.t) : bool :=
  expected_here TokenType.Number p || expected_here TokenType.String p
  || expected_here TokenType.Identifier p || expected_here TokenType.HexColor p.

(** The text of the current token (empty past the vector). *)
Definition current_text (p : Parser.t) : string :=
  match current p with
  | Some tok => value tok
  | None => ""
  end.

(** The token before the cursor: the one consumed last. *)
Definition previous (p : Parser.t) : option Token :=
  if Parser.position p =? 0 then None
  else Parser.tokens p !! N.to_nat (Parser.position p - 1).

(** The value [parseValue] returns, and the state it leaves. *)
Definition value_text (p : Parser.t) : string :=
  if is_value p then current_text p else "".

Definition after_value (p : Parser.t) : Parser.t :=
  if is_value p then advanced p
  else flagged "Expected a value after '<property>:'." p.

(** The states [parseDeclaration] goes through: after the property name,
    after the colon, after the value, after the semicolon. *)
Definition after_property (p : Parser.t) : Parser.t :=
  after_expect TokenType.Identifier "Expected property name." p.

Definition after_colon (p : Parser.t) : Parser.t :=
  after_expect TokenType.Colon "Expected ':' after property name." (after_property p).

Definition after_semicolon (p : Parser.t) : Parser.t :=
  after_expect TokenType.Semicolon "Expected ';' after property value."
               (after_value (after_colon p)).

(** The state [parseDeclaration(selector)] leaves when [tok] was the token
    before the cursor once the property name had been looked for. *)
Definition declared (selector : string) (tok : Token) (p : Parser.t) : Parser.t :=
  Parser.set_stylesheet
    (store selector (value tok) (value_text (after_colon p))
           (Parser.stylesheet (after_semicolon p)))
    (after_semicolon p).

(** The token [i] places after the cursor. *)
Definition token_at (p : Parser.t) (i : N) : option Token :=
  Parser.tokens p !! N.to_nat (Parser.position p + i).

(** A token of one of the four types [parseValue] accepts. *)
Definition is_value_type (ty : TokenType.t) : bool :=
  match ty with
  | TokenType.Number | TokenType.String
  | TokenType.Identifier | TokenType.HexColor => true
  | _ => false
  end.

(** ** Well-formed declarations and what they write *)

(** A declaration as the grammar has it: a property name and the token of
    its value. *)
Definition declaration_tokens (d : string * Token) : list Token :=
  [mkToken TokenType.Identifier d.1; mkToken TokenType.Colon ":";
   d.2; mkToken TokenType.Semicolon ";"].

Fixpoint block_tokens (ds : list (string * Token)) : list Token :=
  match ds with
  | [] => []
  | d :: ds' => (declaration_tokens d ++ block_tokens ds')%list
  end.

(** The writes of the declarations [ds] of one rule, in source order. *)
Fixpoint store_all (selector : string) (ds : list (string * Token))
    (stylesheet : Stylesheet) : Stylesheet :=
  match ds with
  | [] => stylesheet
  | d :: ds' => store_all selector ds' (store selector d.1 (value d.2) stylesheet)
  end.

(** The value of the last declaration of [property] among [ds]. *)
Fixpoint last_value (property : string) (ds : list (string * Token)) : option string :=
  match ds with
  | [] => None
  | d :: ds' =>
      match last_value property ds' with
      | Some v => Some v
      | None => if String.eqb d.1 property then Some (value d.2) else None
      end
  end.

(** [stylesheet[selector][property]], read without creating anything. *)
Definition lookup2 (stylesheet : Stylesheet) (selector property : string)
  : option string :=
  match stylesheet !! selector with
  | Some table => table !! property
  | None => None
  end.

(** Every call of [c] that returns relates the state it leaves to the
    state it started from by [R]. *)
Definition preserves (R : Parser.t -> Parser.t -> Prop) {A : Type}
    (c : M Parser.t A) : Prop :=
  forall p x q, c p = Ok (x, q) -> R p q.

(** A token that none of the checks of [parseDeclaration] accepts and that
    does not end a declaration block. *)
Definition unmatched (tok : Token) : Prop :=
  type tok = TokenType.BraceOpen \/ type tok = TokenType.Unknown.

(** Vectors hold fewer than [2^64] tokens. *)
Definition fits_size_t (p : Parser.t) : Prop :=
  N.of_nat (length (Parser.tokens p)) < 2 ^ 64.

(** ** Comments *)

(** Some ['*'] of [s] is followed at once, inside [s], by ['/']. *)
Fixpoint has_close (s : string) : bool :=
  match s with
  | EmptyString => false
  | String c s' =>
      (Ascii.eqb c "*" && Ascii.eqb (char_at s' 0) "/") || has_close s'
  end.

(** ** Token vectors as the tokenizer makes them *)

(** The last token of the vector is the [EndOfFile] token. *)
Definition eof_terminated (toks : list Token) : Prop :=
  type <$> last toks = Some TokenType.EndOfFile.

(** The cursor is on a token of a vector the tokenizer could have made. *)
Definition inside (p : Parser.t) : Prop :=
  fits_size_t p
  /\ eof_terminated (Parser.tokens p)
  /\ Parser.position p < N.of_nat (length (Parser.tokens p)).

(** The declaration-block loop is over: the cursor is on a closing brace
    or on the [EndOfFile] token. *)
Definition block_done (p : Parser.t) : Prop :=
  exists tok, current p = Some tok
              /\ (type tok = TokenType.BraceClose \/ type tok = TokenType.EndOfFile).

(** The types of first token on which [parseRule] does not reach
    [parseDeclaration] with nothing consumed. *)
Definition starts_rule (ty : TokenType.t) : bool :=
  match ty with
  | TokenType.Identifier | TokenType.BraceOpen
  | TokenType.BraceClose | TokenType.EndOfFile => true
  | _ => false
  end.

(** A token has been consumed, or the first token is one that lets a rule
    start. *)
Definition rule_can_start (p : Parser.t) : Prop :=
  1 <= Parser.position p
  \/ exists tok, current p = Some tok /\ starts_rule (type tok) = true.

(** The selector [parseRule] reads, and the state in which it enters the
    declaration block: after the optional selector and the check for the
    opening brace. *)
Definition rule_selector (p : Parser.t) : string :=
  if expected_here TokenType.Identifier p then current_text p else "".

Definition before_block (p : Parser.t) : Parser.t :=
  after_expect TokenType.BraceOpen "Expected '{' after selector."
    (if expected_here TokenType.Identifier p then advanced p else p).

(** How a rule that returns ends: just after a closing brace, or at the
    end of the input with the error of the missing brace. *)
Definition rule_end (q : Parser.t) : Prop :=
  (exists tok, previous q = Some tok /\ type tok = TokenType.BraceClose)
  \/ (at_end q = true
      /\ Parser.hadError q = true
      /\ errMsg (Parser.lastError q) = "Expected '}' after declaration block.").

(** ** Well-formed stylesheets *)

(** A rule as the grammar has it: a selector and its declarations. *)
Definition rule_tokens (r : string * list (string * Token)) : list Token :=
  (mkToken TokenType.Identifier r.1 :: mkToken TokenType.BraceOpen "{"
   :: block_tokens r.2 ++ [mkToken TokenType.BraceClose "}"])%list.

Fixpoint sheet_tokens (rules : list (string * list (string * Token))) : list Token :=
  match rules with
  | [] => []
  | r :: rules' => (rule_tokens r ++ sheet_tokens rules')%list
  end.

Definition well_formed_rule (r : string * list (string * Token)) : Prop :=
  Forall (fun d => is_value_type (type d.2) = true) r.2.

(** The writes of the rules, in source order. *)
Fixpoint store_rules (rules : list (string * list (string * Token)))
    (stylesheet : Stylesheet) : Stylesheet :=
  match rules with
  | [] => stylesheet
  | r :: rules' => store_rules rules' (store_all r.1 r.2 stylesheet)
  end.

(** The value of the last declaration of [property] in a rule named
    [selector]. *)
Fixpoint last_declared (selector property : string)
    (rules : list (string * list (string * Token))) : option string :=
  match rules with
  | [] => None
  | r :: rules' =>
      match last_declared selector property rules' with
      | Some v => Some v
      | None =>
          if String.eqb r.1 selector then last_value property r.2 else None
      end
  end.

(** The selectors of the rules that declare something. *)
Fixpoint declaring_selectors (rules : list (string * list (string * Token)))
  : gset string :=
  match rules with
  | [] => ∅
  | r :: rules' =>
      match r.2 with
      | [] => declaring_selectors rules'
      | _ :: _ => {[ r.1 ]} ∪ declaring_selectors rules'
      end
  end.

(** * Properties *)

(** Linear arithmetic over string lengths, taken as opaque numbers. *)
Ltac forget_lengths :=
  repeat match goal with
         | |- context [String.length ?s] =>
             let n := fresh "n" in set (n := String.length s) in *; clearbody n
         | H : context [String.length ?s] |- _ =>
             let n := fresh "n" in set (n := String.length s) in *; clearbody n
         end.
Ltac slia := unfold ssize in *; forget_lengths; lia.

(** ** The monad *)

Lemma bind_Ok {St A B : Type} (c : M St A) (k : A -> M St B) s a s' :
  c s = Ok (a, s') -> bind c k s = k a s'.
Proof. intros H. unfold bind. now rewrite H. Qed.

Lemma bind_OutOfRange {St A B : Type} (c : M St A) (k : A -> M St B) s :
  c s = OutOfRange -> bind c k s = OutOfRange.
Proof. intros H. unfold bind. now rewrite H. Qed.

Lemma bind_OutOfFuel {St A B : Type} (c : M St A) (k : A -> M St B) s :
  c s = OutOfFuel -> bind c k s = OutOfFuel.
Proof. intros H. unfold bind. now rewrite H. Qed.

Lemma bind_congr {St A B : Type} (c : M St A) (k k' : A -> M St B) s :
  (forall a s', c s = Ok (a, s') -> k a s' = k' a s') ->
  bind c k s = bind c k' s.
Proof.
  intros H. unfold bind. destruct (c s) as [[a s']| |]; auto.
Qed.

(** When a sequence did not run out of fuel, neither did what follows its
    first call. *)
Lemma bind_finished {St A B : Type} (c : M St A) (k : A -> M St B) s :
  bind c k s <> OutOfFuel ->
  forall a s', c s = Ok (a, s') -> k a s' <> OutOfFuel.
Proof.
  intros H a s' Hc. unfold bind in H. now rewrite Hc in H.
Qed.

(** ** [size_t] arithmetic *)

Lemma size_t_sub_small a b : b <= a -> a < 2 ^ 64 -> size_t_sub a b = a - b.
Proof.
  intros Hba Ha. unfold size_t_sub.
  rewrite (N.mod_small b) by lia.
  replace (a + 2 ^ 64 - b) with ((a - b) + 1 * 2 ^ 64) by lia.
  rewrite N.Div0.mod_add. apply N.mod_small. lia.
Qed.

Lemma size_t_sub_succ_le a : size_t_sub (a + 1) 1 <= a.
Proof.
  unfold size_t_sub. rewrite (N.mod_small 1) by (vm_compute; reflexivity).
  replace (a + 1 + 2 ^ 64 - 1) with (a + 1 * 2 ^ 64) by lia.
  rewrite N.Div0.mod_add. apply N.Div0.mod_le.
Qed.

Lemma size_t_sub_zero_one : size_t_sub 0 1 = SIZE_MAX.
Proof. vm_compute. reflexivity. Qed.

(** ** The cursor of the parser *)

Section Cursor.
Import Parser.

Lemma at_in_range (v : list Token) (i : N) :
  i < N.of_nat (length v) -> exists tok, at_ v i = Ok tok /\ v !! N.to_nat i = Some tok.
Proof.
  intros Hi. unfold at_.
  destruct (N.ltb_spec i (N.of_nat (length v))) as [_|]; [|lia].
  destruct (lookup_lt_is_Some_2 v (N.to_nat i)) as [tok Htok]; [lia|].
  exists tok. now rewrite Htok.
Qed.

Lemma at_out_of_range (v : list Token) (i : N) :
  N.of_nat (length v) <= i -> at_ v i = OutOfRange.
Proof.
  intros Hi. unfold at_.
  destruct (N.ltb_spec i (N.of_nat (length v))); [lia|reflexivity].
Qed.

Lemma current_Some p tok :
  current p = Some tok -> position p < N.of_nat (length (tokens p)).
Proof. unfold current. intros H. apply lookup_lt_Some in H. lia. Qed.

Lemma current_None p :
  current p = None -> N.of_nat (length (tokens p)) <= position p.
Proof. unfold current. intros H. apply lookup_ge_None in H. lia. Qed.

Lemma isAtEnd_eq p : isAtEnd p = Ok (at_end p, p).
Proof.
  unfold isAtEnd, at_end, bind, get, lift, ret.
  destruct (current p) as [tok|] eqn:Hc.
  - pose proof (current_Some _ _ Hc) as Hlt.
    destruct (N.leb_spec (N.of_nat (length (tokens p))) (position p)); [lia|].
    destruct (at_in_range _ _ Hlt) as (tok' & -> & Hl).
    unfold current in Hc. congruence.
  - pose proof (current_None _ Hc) as Hge.
    destruct (N.leb_spec (N.of_nat (length (tokens p))) (position p)); [|lia].
    reflexivity.
Qed.

Lemma peek_eq p tok : current p = Some tok -> peek p = Ok (tok, p).
Proof.
  intros Hc. unfold peek, bind, get, lift.
  destruct (at_in_range _ _ (current_Some _ _ Hc)) as (tok' & -> & Hl).
  unfold current in Hc. congruence.
Qed.

Lemma peek_None p : current p = None -> peek p = OutOfRange.
Proof.
  intros Hc. unfold peek, bind, get, lift.
  now rewrite (at_out_of_range _ _ (current_None _ Hc)).
Qed.

(** Away from the end, [advance] moves the cursor by one and returns. *)
Lemma advance_eq p :
  at_end p = false ->
  exists tok, advance p = Ok (tok, set_position (position p + 1) p).
Proof.
  intros He. unfold advance.
  rewrite (bind_Ok _ _ _ _ _ (isAtEnd_eq p)). rewrite He. cbn [negb].
  unfold bind at 1, modify. unfold bind, get, lift.
  cbn [position tokens set_position].
  unfold at_end in He. destruct (current p) as [tok|] eqn:Hc; [|discriminate].
  pose proof (current_Some _ _ Hc) as Hlt.
  pose proof (size_t_sub_succ_le (position p)) as Hle.
  destruct (at_in_range (tokens p) (size_t_sub (position p + 1) 1)) as (tok' & -> & _);
    [lia|].
  now exists tok'.
Qed.

Lemma match_eq ty p :
  match_ ty p =
  Ok (expected_here ty p,
      if expected_here ty p then set_position (position p + 1) p else p).
Proof.
  unfold match_.
  rewrite (bind_Ok _ _ _ _ _ (isAtEnd_eq p)).
  unfold expected_here. destruct (at_end p) eqn:He.
  - unfold at_end in He. destruct (current p) as [tok|]; [|reflexivity].
    rewrite He. now rewrite andb_false_r.
  - pose proof He as He'. unfold at_end in He'.
    destruct (current p) as [tok|] eqn:Hc; [|discriminate].
    rewrite (bind_Ok _ _ _ _ _ (peek_eq _ _ Hc)). rewrite He'.
    destruct (TokenType.eqb (type tok) ty); cbn [negb andb]; [|reflexivity].
    destruct (advance_eq p He) as [tok' Hadv].
    now rewrite (bind_Ok _ _ _ _ _ Hadv).
Qed.

End Cursor.

(** ** The lexer's scans *)

Section Scans.

Lemma string_drop_length n s :
  String.length (string_drop n s) = (String.length s - n)%nat.
Proof.
  revert s. induction n as [|n IH]; intros [|c s]; cbn; try reflexivity.
  apply IH.
Qed.

Lemma take_while_length_le test s :
  (String.length (take_while test s) <= String.length s)%nat.
Proof.
  induction s as [|c s IH]; cbn; [lia|].
  destruct (test c); cbn; lia.
Qed.

Lemma string_take_take_while test s :
  string_take (String.length (take_while test s)) s = take_while test s.
Proof.
  induction s as [|c s IH]; cbn; [reflexivity|].
  destruct (test c); cbn; [now rewrite IH|reflexivity].
Qed.

Lemma scan_while_eq test s pos :
  Lexer.scan_while test s pos = pos + ssize (take_while test s).
Proof.
  unfold ssize. revert pos. induction s as [|c s IH]; intros pos; cbn.
  - lia.
  - destruct (test c); cbn [String.length]; [rewrite IH|]; lia.
Qed.

Lemma while_char_eq test l :
  Lexer.while_char test l =
  Ok (tt, Lexer.mk (Lexer.input l)
                   (Lexer.position l + ssize (take_while test (Lexer.rest l)))).
Proof.
  unfold Lexer.while_char, modify, Lexer.set_position.
  now rewrite scan_while_eq.
Qed.

End Scans.

(** ** Hex colours *)

Section HexColor.
Import Lexer.

Lemma color_body_fits inp pos :
  pos < ssize inp -> pos + 1 + ssize (color_body inp pos) <= ssize inp.
Proof.
  intros Hpos. unfold color_body, ssize in *.
  pose proof (take_while_length_le (fun c => negb (Ascii.eqb c ";"))
                (string_drop (N.to_nat (pos + 1)) inp)) as Hle.
  rewrite string_drop_length in Hle.
  slia.
Qed.

Lemma lexHexColor_eq l :
  position l < ssize (input l) ->
  ssize (input l) < 2 ^ 64 ->
  lexHexColor l =
  Ok (color_token (color_body (input l) (position l)),
      mk (input l) (position l + 1 + ssize (color_body (input l) (position l)))).
Proof.
  intros Hpos Hsize.
  pose proof (color_body_fits _ _ Hpos) as Hfit.
  unfold lexHexColor.
  unfold bind at 1, modify. unfold bind at 1, get.
  cbn [set_position position input].
  rewrite (bind_Ok _ _ _ _ _ (while_char_eq _ _)).
  unfold rest. cbn [set_position position input].
  fold (color_body (input l) (position l)).
  unfold bind at 1, get. cbn [position input].
  rewrite size_t_sub_small by lia.
  replace (position l + 1 + ssize (color_body (input l) (position l)) - (position l + 1))
    with (ssize (color_body (input l) (position l))) by lia.
  unfold color_token.
  destruct (Nat.eqb_spec (String.length (color_body (input l) (position l))) 6)
    as [H6|H6].
  - replace (ssize (color_body (input l) (position l)) =? 6) with true
      by (symmetry; apply N.eqb_eq; unfold ssize; lia).
    cbn [negb]. unfold bind, lift, substr, ret.
    destruct (N.ltb_spec (ssize (input l)) (position l + 1)); [lia|].
    do 2 f_equal. f_equal.
    replace (N.to_nat (N.min (ssize (color_body (input l) (position l)))
                             (ssize (input l) - (position l + 1))))
      with (String.length (color_body (input l) (position l)))
      by (unfold ssize in *; lia).
    apply string_take_take_while.
  - replace (ssize (color_body (input l) (position l)) =? 6) with false
      by (symmetry; apply N.eqb_neq; unfold ssize; lia).
    reflexivity.
Qed.

End HexColor.

(** ** The tokenizer returns

    Every turn of the loop of [tokenize] moves the cursor forward and keeps
    it inside the input, so the loop ends within [input.size()] turns and no
    [substr] is out of range. *)

Section TokenizeReturns.
Import Lexer.

Lemma string_drop_cons s n :
  (n < String.length s)%nat ->
  string_drop n s = String (default zero (String.get n s)) (string_drop (S n) s).
Proof.
  revert s. induction n as [|n IH]; intros [|c s] Hn; cbn in *; try lia.
  - reflexivity.
  - apply IH. lia.
Qed.

Lemma rest_cons l :
  position l < ssize (input l) ->
  rest l = String (char_at (input l) (position l))
                  (string_drop (S (N.to_nat (position l))) (input l)).
Proof.
  intros Hpos. unfold rest, char_at. apply string_drop_cons. slia.
Qed.

Lemma rest_length l :
  position l <= ssize (input l) ->
  ssize (rest l) = ssize (input l) - position l.
Proof.
  intros Hpos. unfold rest, ssize in *. rewrite string_drop_length. slia.
Qed.

Lemma take_while_drop_bound test s n :
  n <= ssize s ->
  ssize (take_while test (string_drop (N.to_nat n) s)) <= ssize s - n.
Proof.
  intros Hn.
  pose proof (take_while_length_le test (string_drop (N.to_nat n) s)) as Hle.
  rewrite string_drop_length in Hle. slia.
Qed.

Lemma take_while_first test c s :
  test c = true -> (1 <= String.length (take_while test (String c s)))%nat.
Proof. intros Hc. cbn. rewrite Hc. cbn. lia. Qed.

Lemma substr_Ok s pos count :
  pos <= ssize s -> exists text, substr s pos count = Ok text.
Proof.
  intros Hpos. unfold substr.
  destruct (N.ltb_spec (ssize s) pos); [lia|]. eauto.
Qed.

(** The scan of a run that starts with a character passing [test]. *)
Lemma while_char_progress test l :
  position l < ssize (input l) ->
  test (char_at (input l) (position l)) = true ->
  exists n,
    while_char test l = Ok (tt, mk (input l) n)
    /\ position l < n /\ n <= ssize (input l).
Proof.
  intros Hpos Hc. rewrite while_char_eq. eexists. split; [reflexivity|].
  pose proof (take_while_drop_bound test (input l) (position l) ltac:(lia)) as Hle.
  fold (rest l) in Hle. rewrite (rest_cons l Hpos) in Hle |- *.
  pose proof (take_while_first test _
                (string_drop (S (N.to_nat (position l))) (input l)) Hc) as H1.
  slia.
Qed.

Lemma scan_comment_bounds s pos :
  exists k,
    scan_comment s pos = pos + k
    /\ k <= ssize s
    /\ (k < ssize s -> k + 2 <= ssize s).
Proof.
  revert pos. induction s as [|c s IH]; intros pos; cbn [scan_comment].
  - exists 0. unfold ssize. cbn. lia.
  - destruct (Ascii.eqb c "*" && Ascii.eqb (char_at s 0) "/") eqn:E.
    + exists 0. split; [lia|]. split; [lia|]. intros _.
      apply andb_true_iff in E as [_ E].
      destruct s as [|c' s]; [discriminate E|].
      unfold ssize. cbn [String.length]. lia.
    + destruct (IH (pos + 1)) as (k & Hk & Hle & Hlt).
      exists (k + 1). unfold ssize in *. cbn [String.length].
      split; [lia|]. split; lia.
Qed.

Ltac returned_further :=
  do 2 eexists; split; [reflexivity|];
  cbn [set_position input position]; split; [reflexivity|lia].

Ltac bump_position :=
  unfold bind, modify, ret, set_position; cbn [input position];
  returned_further.

Lemma lex_text_progress (ty : TokenType.t) test l :
  position l < ssize (input l) ->
  ssize (input l) < 2 ^ 64 ->
  test (char_at (input l) (position l)) = true ->
  exists tok l',
    (let* l0 := get in
     let start := position l0 in
     let* _ := while_char test in
     let* l1 := get in
     let* text := lift (substr (input l1) start (size_t_sub (position l1) start)) in
     ret (mkToken ty text)) l = Ok (tok, l')
    /\ input l' = input l
    /\ position l < position l' <= ssize (input l).
Proof.
  intros Hpos Hsize Hc.
  destruct (while_char_progress test l Hpos Hc) as (n & Hw & Hlt & Hle).
  unfold bind at 1, get. rewrite (bind_Ok _ _ _ _ _ Hw).
  unfold bind at 1, get. cbn [input position].
  destruct (substr_Ok (input l) (position l) (size_t_sub n (position l)))
    as [text Htext]; [lia|].
  unfold bind, lift, ret. rewrite Htext.
  returned_further.
Qed.

Lemma lexString_progress l :
  position l < ssize (input l) ->
  exists tok l',
    lexString l = Ok (tok, l')
    /\ input l' = input l
    /\ position l < position l' <= ssize (input l).
Proof.
  intros Hpos. unfold lexString.
  unfold bind at 1, modify. unfold bind at 1, get.
  rewrite (bind_Ok _ _ _ _ _ (while_char_eq _ _)).
  unfold rest. cbn [set_position input position].
  pose proof (take_while_drop_bound (fun c => negb (Ascii.eqb c dquote))
                (input l) (position l + 1) ltac:(lia)) as Hle.
  set (n := position l + 1 + ssize (take_while _ _)) in *.
  assert (Hn : position l + 1 <= n /\ n <= ssize (input l)) by (subst n; lia).
  clearbody n.
  unfold bind at 1, get. cbn [input position].
  destruct (N.ltb_spec n (ssize (input l))) as [Hlt|Hge].
  - unfold bind at 1, modify. unfold bind at 1, get.
    cbn [set_position input position].
    destruct (substr_Ok (input l) (position l + 1)
                (size_t_sub (size_t_sub (n + 1) (position l + 1)) 1))
      as [text Htext]; [lia|].
    unfold bind, lift, ret. rewrite Htext.
    returned_further.
  - unfold bind at 1, ret. unfold bind at 1, get. cbn [input position].
    destruct (substr_Ok (input l) (position l + 1)
                (size_t_sub (size_t_sub n (position l + 1)) 1))
      as [text Htext]; [lia|].
    unfold bind, lift, ret. rewrite Htext.
    returned_further.
Qed.

Lemma tokenize_step_progress tokens l :
  position l < ssize (input l) ->
  ssize (input l) < 2 ^ 64 ->
  exists tokens' l',
    tokenize_step tokens l = Ok (tokens', l')
    /\ input l' = input l
    /\ position l < position l' <= ssize (input l).
Proof.
  intros Hpos Hsize. unfold tokenize_step. unfold bind at 1, get.
  destruct (isspace (char_at (input l) (position l))) eqn:Esp.
  { destruct (while_char_progress isspace l Hpos Esp) as (n & Hw & Hn).
    rewrite (bind_Ok _ _ _ _ _ Hw). unfold ret.
    returned_further. }
  destruct (isalpha (char_at (input l) (position l))
            || Ascii.eqb (char_at (input l) (position l)) "-") eqn:Eid.
  { destruct (lex_text_progress TokenType.Identifier
                (fun c => isalnum c || Ascii.eqb c "-") l Hpos Hsize)
      as (tok & l' & Hlex & Hl').
    { unfold isalnum. apply orb_true_iff in Eid as [->| ->];
        [reflexivity|apply orb_true_r]. }
    unfold lexIdentifier. rewrite (bind_Ok _ _ _ _ _ Hlex).
    do 2 eexists. split; [reflexivity|exact Hl']. }
  destruct (isdigit (char_at (input l) (position l))) eqn:Edg.
  { destruct (lex_text_progress TokenType.Number isdigit l Hpos Hsize Edg)
      as (tok & l' & Hlex & Hl').
    unfold lexNumber. rewrite (bind_Ok _ _ _ _ _ Hlex).
    do 2 eexists. split; [reflexivity|exact Hl']. }
  destruct (Ascii.eqb (char_at (input l) (position l)) dquote).
  { destruct (lexString_progress l Hpos) as (tok & l' & Hlex & Hl').
    rewrite (bind_Ok _ _ _ _ _ Hlex).
    do 2 eexists. split; [reflexivity|exact Hl']. }
  destruct (Ascii.eqb (char_at (input l) (position l)) ":"); [bump_position|].
  destruct (Ascii.eqb (char_at (input l) (position l)) ";"); [bump_position|].
  destruct (Ascii.eqb (char_at (input l) (position l)) "{"); [bump_position|].
  destruct (Ascii.eqb (char_at (input l) (position l)) "}"); [bump_position|].
  destruct (Ascii.eqb (char_at (input l) (position l)) "#").
  { rewrite (bind_Ok _ _ _ _ _ (lexHexColor_eq l Hpos Hsize)).
    pose proof (color_body_fits _ _ Hpos) as Hfit.
    returned_further. }
  destruct (Ascii.eqb (char_at (input l) (position l)) "/" && Ascii.eqb (peek 1 l) "*")
    eqn:Ecm; [|bump_position].
  assert (Hpeek : position l + 1 < ssize (input l)).
  { apply andb_true_iff in Ecm as [_ Ecm]. unfold peek in Ecm.
    destruct (N.ltb_spec (position l + 1) (ssize (input l))); [assumption|].
    discriminate Ecm. }
  unfold bind at 1, modify. unfold bind at 1. cbn [set_position input position].
  destruct (scan_comment_bounds
              (rest (set_position (position l + 2) l))
              (position l + 2)) as (k & Hk & Hle & Hlt).
  rewrite Hk.
  assert (Hlen := rest_length (set_position (position l + 2) l)
                    ltac:(cbn; lia)).
  cbn [set_position input position] in Hlen. rewrite Hlen in Hle, Hlt.
  unfold bind at 1. cbn [set_position input position].
  destruct (N.ltb_spec (position l + 2 + k) (ssize (input l))) as [Hin|Hout].
  - unfold bind, ret. returned_further.
  - unfold bind, ret. returned_further.
Qed.

Lemma tokenize_loop_returns fuel :
  forall tokens l,
    ssize (input l) < 2 ^ 64 ->
    position l <= ssize (input l) ->
    ssize (input l) - position l <= N.of_nat fuel ->
    exists tokens' l', tokenize_loop fuel tokens l = Ok (tokens', l').
Proof.
  induction fuel as [|fuel IH]; intros tokens l Hsize Hpos Hfuel.
  - cbn [tokenize_loop]. unfold bind, get.
    destruct (N.ltb_spec (position l) (ssize (input l))); [lia|]. unfold ret. eauto.
  - cbn [tokenize_loop]. unfold bind at 1, get.
    destruct (N.ltb_spec (position l) (ssize (input l))) as [Hlt|Hge];
      [|unfold ret; eauto].
    destruct (tokenize_step_progress tokens l Hlt Hsize)
      as (tokens' & l' & Hstep & Hin & Hl').
    rewrite (bind_Ok _ _ _ _ _ Hstep).
    apply IH; rewrite Hin; lia.
Qed.

Lemma tokenize_returns css :
  ssize css < 2 ^ 64 ->
  exists tokens l, tokenize (mk css 0) = Ok (tokens, l).
Proof.
  intros Hsize. unfold tokenize, bind at 1, get. cbn [input].
  apply tokenize_loop_returns; cbn [input position]; unfold ssize in *; lia.
Qed.

End TokenizeReturns.

(** ** Strings *)

Section Strings.
Import Lexer.

Lemma string_take_prefix test s k :
  (k <= String.length (take_while test s))%nat ->
  string_take k s = string_take k (take_while test s).
Proof.
  revert k. induction s as [|c s IH]; intros [|k] Hk; cbn in *; try reflexivity.
  destruct (test c); cbn in *; [|lia].
  f_equal. apply IH. lia.
Qed.

(** What [lexString] returns at an opening quote.  When the closing quote
    is there, the text is the body and the cursor ends after the closing
    quote.  When it is not, the cursor ends at the end of the input and
    the text is the body without its last character. *)
Lemma lexString_eq l :
  position l < ssize (input l) ->
  ssize (input l) < 2 ^ 64 ->
  let body := string_body (input l) (position l) in
  lexString l =
  if string_closed (input l) (position l)
  then Ok (mkToken TokenType.String body,
           mk (input l) (position l + 1 + ssize body + 1))
  else Ok (mkToken TokenType.String (string_take (String.length body - 1) body),
           mk (input l) (position l + 1 + ssize body)).
Proof.
  intros Hpos Hsize body. unfold lexString.
  unfold bind at 1, modify. unfold bind at 1, get.
  rewrite (bind_Ok _ _ _ _ _ (while_char_eq _ _)).
  unfold rest. cbn [set_position input position].
  fold (string_body (input l) (position l)). fold body.
  pose proof (take_while_drop_bound (fun c => negb (Ascii.eqb c dquote))
                (input l) (position l + 1) ltac:(lia)) as Hle.
  fold (string_body (input l) (position l)) in Hle. fold body in Hle.
  unfold string_closed. fold body.
  unfold bind at 1, get. cbn [input position].
  destruct (N.ltb_spec (position l + 1 + ssize body) (ssize (input l))) as [Hlt|Hge].
  - unfold bind at 1, modify. unfold bind at 1, get.
    cbn [set_position input position].
    rewrite (size_t_sub_small (position l + 1 + ssize body + 1)) by lia.
    rewrite size_t_sub_small by lia.
    unfold bind, lift, ret, substr.
    destruct (N.ltb_spec (ssize (input l)) (position l + 1)); [lia|].
    do 3 f_equal.
    replace (N.to_nat (N.min (position l + 1 + ssize body + 1 - (position l + 1) - 1)
                             (ssize (input l) - (position l + 1))))
      with (String.length body) by (unfold ssize in *; lia).
    apply string_take_take_while.
  - unfold bind at 1, ret. unfold bind at 1, get. cbn [input position].
    rewrite (size_t_sub_small (position l + 1 + ssize body)) by lia.
    replace (position l + 1 + ssize body - (position l + 1)) with (ssize body) by lia.
    unfold bind, lift, ret, substr.
    destruct (N.ltb_spec (ssize (input l)) (position l + 1)); [lia|].
    do 3 f_equal.
    assert (Hmin : N.to_nat (N.min (size_t_sub (ssize body) 1)
                                   (ssize (input l) - (position l + 1)))
                   = (String.length body - 1)%nat).
    { destruct (N.eqb_spec (ssize body) 0) as [H0|H0].
      - rewrite H0, size_t_sub_zero_one. unfold SIZE_MAX, ssize in *. lia.
      - rewrite size_t_sub_small by lia. unfold ssize in *. lia. }
    rewrite Hmin. unfold body, string_body. apply string_take_prefix. slia.
Qed.

End Strings.

(** C4: where the tokenizer meets a pound sign, the candidate body is made
    of all the characters that follow up to the next [';'] (or the end of the
    input); the turn appends a [HexColor] token holding the body when the
    body has exactly 6 characters, whatever they are, and an [Unknown] token
    holding ["<InvalidColor>"] otherwise, and leaves the cursor just after
    the body. *)
Theorem tokenize_hex_color (tokens : list Token) (l : Lexer.t) :
  Lexer.position l < ssize (Lexer.input l) ->
  ssize (Lexer.input l) < 2 ^ 64 ->
  char_at (Lexer.input l) (Lexer.position l) = "#"%char ->
  let body := color_body (Lexer.input l) (Lexer.position l) in
  Lexer.tokenize_step tokens l =
  Ok (push_back tokens
        (if (String.length body =? 6)%nat
         then mkToken TokenType.HexColor body
         else mkToken TokenType.Unknown "<InvalidColor>"),
      Lexer.mk (Lexer.input l) (Lexer.position l + 1 + ssize body)).
Proof.
  intros Hpos Hsize Hc body.
  unfold Lexer.tokenize_step. unfold bind at 1, get. rewrite Hc.
  change (isspace "#") with false.
  change (isalpha "#" || Ascii.eqb "#" "-") with false.
  change (isdigit "#") with false.
  change (Ascii.eqb "#" dquote) with false.
  change (Ascii.eqb "#" ":") with false.
  change (Ascii.eqb "#" ";") with false.
  change (Ascii.eqb "#" "{") with false.
  change (Ascii.eqb "#" "}") with false.
  change (Ascii.eqb "#" "#") with true.
  cbv iota.
  rewrite (bind_Ok _ _ _ _ _ (lexHexColor_eq l Hpos Hsize)).
  reflexivity.
Qed.

(** C8: for every token vector and every cursor, [match(type)] returns
    normally.  It returns true exactly when the current token has the
    expected type and is not the end-of-input marker, and then the cursor
    has moved forward by exactly one token; otherwise it returns false and
    the whole parser state, the cursor included, is as it was. *)
Theorem match_consumes_one_or_nothing (ty : TokenType.t) (p : Parser.t) :
  exists p',
    Parser.match_ ty p = Ok (expected_here ty p, p')
    /\ p' = (if expected_here ty p
             then Parser.set_position (Parser.position p + 1) p else p)
    /\ Parser.position p' =
       Parser.position p + (if expected_here ty p then 1 else 0).
Proof.
  eexists. split; [apply match_eq|]. split; [reflexivity|].
  destruct (expected_here ty p); cbn; lia.
Qed.

(** C4, at the colour of [c: #08090E;]. *)
Lemma tokenize_hex_color_witness :
  let l := Lexer.mk "c: #08090E;" 3 in
  Lexer.position l < ssize (Lexer.input l)
  /\ ssize (Lexer.input l) < 2 ^ 64
  /\ char_at (Lexer.input l) (Lexer.position l) = "#"%char
  /\ Lexer.tokenize_step [] l =
     Ok ([mkToken TokenType.HexColor "08090E"], Lexer.mk "c: #08090E;" 10).
Proof.
  intros l.
  assert (H1 : Lexer.position l < ssize (Lexer.input l)) by (vm_compute; reflexivity).
  assert (H2 : ssize (Lexer.input l) < 2 ^ 64) by (vm_compute; reflexivity).
  assert (H3 : char_at (Lexer.input l) (Lexer.position l) = "#"%char)
    by (vm_compute; reflexivity).
  split; [exact H1|]. split; [exact H2|]. split; [exact H3|].
  exact (tokenize_hex_color [] l H1 H2 H3).
Defined.

(** ** Fuel

    A call that returned or raised with some fuel does the same with any
    larger fuel: the fuel is only a bound on the turns of the loops. *)

Section Fuel.
Import Parser.

Lemma parseDeclarationBlock_unfold fuel selector :
  parseDeclarationBlock fuel selector =
  (let* tok := peek in
   let* again :=
     (if negb (TokenType.eqb (type tok) TokenType.BraceClose)
      then let* e := isAtEnd in ret (negb e)
      else ret false) in
   if again then
     match fuel with
     | O => fun _ => OutOfFuel
     | S fuel' =>
         let* _ := parseDeclaration selector in
         parseDeclarationBlock fuel' selector
     end
   else ret tt).
Proof. destruct fuel; reflexivity. Qed.

Lemma parse_unfold fuel :
  parse fuel =
  (let* e := isAtEnd in
   let* p := get in
   if negb e && negb (hadError p) then
     match fuel with
     | O => fun _ => OutOfFuel
     | S fuel' =>
         let* _ := parseRule fuel' in
         parse fuel'
     end
   else ret tt).
Proof. destruct fuel; reflexivity. Qed.

Lemma parseDeclarationBlock_more_fuel fuel fuel' selector p :
  (fuel <= fuel')%nat ->
  parseDeclarationBlock fuel selector p <> OutOfFuel ->
  parseDeclarationBlock fuel' selector p = parseDeclarationBlock fuel selector p.
Proof.
  revert fuel' p. induction fuel as [|fuel IH]; intros fuel' p Hle Hfin.
  - rewrite (parseDeclarationBlock_unfold 0 selector) in Hfin |- *.
    rewrite (parseDeclarationBlock_unfold fuel' selector).
    apply bind_congr; intros tok p1 H1.
    apply (fun H => bind_finished _ _ _ H _ _ H1) in Hfin.
    apply bind_congr; intros again p2 H2.
    apply (fun H => bind_finished _ _ _ H _ _ H2) in Hfin.
    destruct again; [now contradiction Hfin|reflexivity].
  - rewrite (parseDeclarationBlock_unfold (S fuel) selector) in Hfin |- *.
    rewrite (parseDeclarationBlock_unfold fuel' selector).
    apply bind_congr; intros tok p1 H1.
    apply (fun H => bind_finished _ _ _ H _ _ H1) in Hfin.
    apply bind_congr; intros again p2 H2.
    apply (fun H => bind_finished _ _ _ H _ _ H2) in Hfin.
    destruct again; [|reflexivity].
    destruct fuel' as [|fuel']; [lia|].
    apply bind_congr; intros u p3 H3.
    apply (fun H => bind_finished _ _ _ H _ _ H3) in Hfin.
    apply IH; [lia|assumption].
Qed.

Lemma parseRule_more_fuel fuel fuel' p :
  (fuel <= fuel')%nat ->
  parseRule fuel p <> OutOfFuel ->
  parseRule fuel' p = parseRule fuel p.
Proof.
  intros Hle Hfin. unfold parseRule in *.
  apply bind_congr; intros selector p1 H1.
  apply (fun H => bind_finished _ _ _ H _ _ H1) in Hfin.
  apply bind_congr; intros m1 p2 H2.
  apply (fun H => bind_finished _ _ _ H _ _ H2) in Hfin.
  apply bind_congr; intros u p3 H3.
  apply (fun H => bind_finished _ _ _ H _ _ H3) in Hfin.
  unfold bind at 1 in Hfin. unfold bind at 1. unfold bind at 2.
  rewrite (parseDeclarationBlock_more_fuel fuel fuel' selector p3 Hle).
  - reflexivity.
  - intros Hout. rewrite Hout in Hfin. now apply Hfin.
Qed.

Lemma parse_more_fuel fuel fuel' p :
  (fuel <= fuel')%nat ->
  parse fuel p <> OutOfFuel ->
  parse fuel' p = parse fuel p.
Proof.
  revert fuel' p. induction fuel as [|fuel IH]; intros fuel' p Hle Hfin.
  - rewrite (parse_unfold 0) in Hfin |- *. rewrite (parse_unfold fuel').
    apply bind_congr; intros e p1 H1.
    apply (fun H => bind_finished _ _ _ H _ _ H1) in Hfin.
    apply bind_congr; intros p1' p2 H2.
    apply (fun H => bind_finished _ _ _ H _ _ H2) in Hfin. cbv beta in Hfin.
    destruct (negb e && negb (hadError p1')); [now contradiction Hfin|reflexivity].
  - rewrite (parse_unfold (S fuel)) in Hfin |- *. rewrite (parse_unfold fuel').
    apply bind_congr; intros e p1 H1.
    apply (fun H => bind_finished _ _ _ H _ _ H1) in Hfin.
    apply bind_congr; intros p1' p2 H2.
    apply (fun H => bind_finished _ _ _ H _ _ H2) in Hfin. cbv beta in Hfin.
    destruct (negb e && negb (hadError p1')); [|reflexivity].
    destruct fuel' as [|fuel']; [lia|].
    unfold bind in Hfin |- *.
    rewrite (parseRule_more_fuel fuel fuel' p2) by
      (try lia; intros Hout; rewrite Hout in Hfin; now apply Hfin).
    destruct (parseRule fuel p2) as [[[] p3]| |]; try reflexivity.
    apply IH; [lia|assumption].
Qed.

Lemma run_more_fuel fuel fuel' css :
  (fuel <= fuel')%nat ->
  run fuel css <> OutOfFuel ->
  run fuel' css = run fuel css.
Proof.
  intros Hle Hfin. unfold run in *.
  destruct (new css) as [p| |]; try reflexivity.
  rewrite (parse_more_fuel fuel fuel' p Hle); [reflexivity|].
  intros Hout. rewrite Hout in Hfin. now apply Hfin.
Qed.

End Fuel.

(** C6: parsing the truncated input [a { x: 1;] returns (with any fuel of
    at least two loop turns) with the error flag set and the last error
    message "Expected '}' after declaration block."; the stylesheet holds
    selector "a" whose table maps "x" to "1", and nothing else. *)
Theorem parse_truncated_rule (extra : nat) :
  exists p,
    run (2 + extra) "a { x: 1;" = Ok p
    /\ Parser.hadError p = true
    /\ errMsg (Parser.lastError p) = "Expected '}' after declaration block."
    /\ Parser.getStylesheet p = {[ "a" := {[ "x" := "1" ]} ]}.
Proof.
  assert (H2 : exists p,
    run 2 "a { x: 1;" = Ok p
    /\ Parser.hadError p = true
    /\ errMsg (Parser.lastError p) = "Expected '}' after declaration block."
    /\ Parser.getStylesheet p = {[ "a" := {[ "x" := "1" ]} ]}).
  { eexists. split; [vm_compute; reflexivity|].
    repeat split; vm_compute; reflexivity. }
  destruct H2 as (p & Hrun & Hrest). exists p. split; [|exact Hrest].
  rewrite (run_more_fuel 2 (2 + extra)); [exact Hrun|lia|].
  rewrite Hrun. discriminate.
Qed.

(** ** What the parser never undoes

    A relation between states that holds across a move of the cursor, a
    write to the stylesheet and the recording of an error holds across every
    call of the parser that returns. *)

Section Preserved.
Import Parser.

Variable R : t -> t -> Prop.
Hypothesis R_refl : forall p, R p p.
Hypothesis R_trans : forall p q r, R p q -> R q r -> R p r.
Hypothesis R_position : forall n p, R p (set_position n p).
Hypothesis R_stylesheet : forall s p, R p (set_stylesheet s p).
Hypothesis R_error : forall msg p, R p (flagged msg p).

Lemma preserves_ret {A : Type} (a : A) : preserves R (ret a).
Proof. intros p x q H. injection H as _ <-. apply R_refl. Qed.

Lemma preserves_get : preserves R get.
Proof. intros p x q H. injection H as _ <-. apply R_refl. Qed.

Lemma preserves_lift {A : Type} (r : result A) : preserves R (lift r).
Proof.
  intros p x q H. unfold lift in H. destruct r; try discriminate.
  injection H as _ <-. apply R_refl.
Qed.

Lemma preserves_bind {A B : Type} (c : M t A) (k : A -> M t B) :
  preserves R c -> (forall a, preserves R (k a)) -> preserves R (bind c k).
Proof.
  intros Hc Hk p x q H. unfold bind in H.
  destruct (c p) as [[a p1]| |] eqn:E; try discriminate.
  eapply R_trans; [eapply Hc, E|eapply Hk, H].
Qed.

Lemma preserves_makeError msg : preserves R (makeError msg).
Proof. intros p x q H. injection H as _ <-. apply (R_error msg p). Qed.

Lemma preserves_move (f : t -> N) :
  preserves R (modify (fun p => set_position (f p) p)).
Proof. intros p x q H. injection H as _ <-. apply R_position. Qed.

Lemma preserves_write (f : t -> Stylesheet) :
  preserves R (modify (fun p => set_stylesheet (f p) p)).
Proof. intros p x q H. injection H as _ <-. apply R_stylesheet. Qed.

Lemma preserves_OutOfFuel {A : Type} : preserves R (fun _ => @OutOfFuel (A * t)).
Proof. intros p x q H. discriminate. Qed.

Ltac preserved :=
  repeat first
    [ apply preserves_ret | apply preserves_get | apply preserves_lift
    | apply preserves_makeError | apply preserves_move | apply preserves_write
    | apply preserves_OutOfFuel | assumption
    | match goal with
      | H : context [preserves] |- _ => apply H
      end
    | apply preserves_bind; [|intro]
    | match goal with
      | |- preserves _ (if ?b then _ else _) => destruct b
      end ].

Lemma preserves_isAtEnd : preserves R isAtEnd.
Proof. unfold isAtEnd. preserved. Qed.

Lemma preserves_peek : preserves R peek.
Proof. unfold peek. preserved. Qed.

Lemma preserves_advance : preserves R advance.
Proof. pose proof preserves_isAtEnd. unfold advance. preserved. Qed.

Lemma preserves_match ty : preserves R (match_ ty).
Proof.
  pose proof preserves_isAtEnd. pose proof preserves_peek.
  pose proof preserves_advance. unfold match_. preserved.
Qed.

Lemma preserves_parseSelector : preserves R parseSelector.
Proof.
  pose proof (preserves_match TokenType.Identifier).
  unfold parseSelector. preserved.
Qed.

Lemma preserves_parseValue : preserves R parseValue.
Proof.
  pose proof (preserves_match TokenType.Number).
  pose proof (preserves_match TokenType.String).
  pose proof (preserves_match TokenType.Identifier).
  pose proof (preserves_match TokenType.HexColor).
  unfold parseValue, orM. preserved.
Qed.

Lemma preserves_parseDeclaration selector : preserves R (parseDeclaration selector).
Proof.
  pose proof (preserves_match TokenType.Identifier).
  pose proof (preserves_match TokenType.Colon).
  pose proof (preserves_match TokenType.Semicolon).
  pose proof preserves_parseValue.
  unfold parseDeclaration. preserved.
Qed.

Lemma preserves_parseDeclarationBlock fuel selector :
  preserves R (parseDeclarationBlock fuel selector).
Proof.
  pose proof preserves_isAtEnd. pose proof preserves_peek.
  pose proof (preserves_parseDeclaration selector).
  induction fuel as [|fuel IH]; rewrite parseDeclarationBlock_unfold; preserved.
Qed.

Lemma preserves_parseRule fuel : preserves R (parseRule fuel).
Proof.
  pose proof preserves_parseSelector.
  pose proof (preserves_match TokenType.BraceOpen).
  pose proof (preserves_match TokenType.BraceClose).
  pose proof (preserves_parseDeclarationBlock fuel).
  unfold parseRule. preserved.
Qed.

Lemma preserves_parse fuel : preserves R (parse fuel).
Proof.
  pose proof preserves_isAtEnd. pose proof preserves_parseRule.
  induction fuel as [|fuel IH]; rewrite parse_unfold; preserved.
Qed.

End Preserved.

(** The error flag is never cleared once set. *)
Lemma parseRule_keeps_flag fuel p q :
  Parser.parseRule fuel p = Ok (tt, q) ->
  Parser.hadError p = true -> Parser.hadError q = true.
Proof.
  apply (preserves_parseRule (fun p q => Parser.hadError p = true -> Parser.hadError q = true));
    auto.
Qed.

Lemma parse_keeps_flag fuel p q :
  Parser.parse fuel p = Ok (tt, q) ->
  Parser.hadError p = true -> Parser.hadError q = true.
Proof.
  apply (preserves_parse (fun p q => Parser.hadError p = true -> Parser.hadError q = true));
    auto.
Qed.

(** The token vector and the source text are read only. *)
Lemma parse_keeps_tokens fuel p q :
  Parser.parse fuel p = Ok (tt, q) ->
  Parser.tokens q = Parser.tokens p /\ Parser.lexer q = Parser.lexer p.
Proof.
  apply (preserves_parse
           (fun p q => Parser.tokens q = Parser.tokens p
                       /\ Parser.lexer q = Parser.lexer p)); auto.
  intros p0 q0 r [H1 H2] [H3 H4]. split; congruence.
Qed.

(** ** The top-level loop *)

Section TopLevel.
Import Parser.

Lemma parse_flagged fuel p : hadError p = true -> parse fuel p = Ok (tt, p).
Proof.
  intros Hflag. rewrite parse_unfold.
  rewrite (bind_Ok _ _ _ _ _ (isAtEnd_eq p)).
  unfold bind, get. rewrite Hflag, andb_false_r. reflexivity.
Qed.

Lemma parse_turn fuel p :
  at_end p = false -> hadError p = false ->
  parse (S fuel) p = (let* _ := parseRule fuel in parse fuel) p.
Proof.
  intros Hend Hflag. rewrite parse_unfold.
  rewrite (bind_Ok _ _ _ _ _ (isAtEnd_eq p)).
  unfold bind at 1, get. rewrite Hend, Hflag. reflexivity.
Qed.

End TopLevel.

(** C7: when the rule in progress ends with the error flag set (the flag
    is never cleared: [parseRule_keeps_flag]), [parse] returns with exactly
    the state that rule left, its stylesheet included: the loop tests the
    flag before each rule, so no further rule is started and nothing is
    added or modified, whatever tokens remain; running the loop again from
    that state changes nothing either. *)
Theorem parse_stops_at_flagged_rule (fuel : nat) (p p1 : Parser.t) :
  at_end p = false ->
  Parser.hadError p = false ->
  Parser.parseRule fuel p = Ok (tt, p1) ->
  Parser.hadError p1 = true ->
  (forall fuel', (S fuel <= fuel')%nat -> Parser.parse fuel' p = Ok (tt, p1))
  /\ (forall fuel', Parser.parse fuel' p1 = Ok (tt, p1)).
Proof.
  intros Hend Hflag Hrule Hflag1.
  assert (Hparse : Parser.parse (S fuel) p = Ok (tt, p1)).
  { rewrite (parse_turn fuel p Hend Hflag).
    rewrite (bind_Ok _ _ _ _ _ Hrule).
    now apply parse_flagged. }
  split.
  - intros fuel' Hle.
    rewrite (parse_more_fuel (S fuel) fuel' p Hle); [exact Hparse|].
    rewrite Hparse. discriminate.
  - intros fuel'. now apply parse_flagged.
Qed.

(** C7, on [a { x 1; } b { y: 2; }]: the missing colon flags the first rule
    and the well-formed rule [b] is never parsed. *)
Lemma parse_stops_at_flagged_rule_witness :
  let p := parser_of "a { x 1; } b { y: 2; }" in
  let p1 := Parser.mk (Parser.lexer p) (Parser.tokens p)
              {[ "a" := {[ "x" := "1" ]} ]} 6 true
              (mkParseError "Expected ':' after property name."
                            "a { x 1; } b { y: 2; }") in
  at_end p = false
  /\ Parser.hadError p = false
  /\ Parser.parseRule 1 p = Ok (tt, p1)
  /\ Parser.hadError p1 = true
  /\ Parser.parse 2 p = Ok (tt, p1)
  /\ current p1 = Some (mkToken TokenType.Identifier "b").
Proof.
  intros p p1.
  assert (H1 : at_end p = false) by (vm_compute; reflexivity).
  assert (H2 : Parser.hadError p = false) by (vm_compute; reflexivity).
  assert (H3 : Parser.parseRule 1 p = Ok (tt, p1)) by (vm_compute; reflexivity).
  assert (H4 : Parser.hadError p1 = true) by reflexivity.
  split; [exact H1|]. split; [exact H2|]. split; [exact H3|]. split; [exact H4|].
  split; [exact (proj1 (parse_stops_at_flagged_rule 1 p p1 H1 H2 H3 H4) 2%nat (le_n 2))|].
  vm_compute. reflexivity.
Defined.

(** ** Declarations *)

Section Declarations.
Import Parser.

Lemma makeError_eq msg p : makeError msg p = Ok (tt, flagged msg p).
Proof. reflexivity. Qed.

Lemma expect_eq {B : Type} ty msg (k : M t B) p :
  (let* m := match_ ty in
   let* _ := (if negb m then makeError msg else ret tt) in
   k) p = k (after_expect ty msg p).
Proof.
  rewrite (bind_Ok _ _ _ _ _ (match_eq ty p)).
  unfold after_expect, advanced.
  destruct (expected_here ty p); reflexivity.
Qed.

Lemma current_flagged msg p : current (flagged msg p) = current p.
Proof. reflexivity. Qed.

Lemma expected_here_flagged ty msg p :
  expected_here ty (flagged msg p) = expected_here ty p.
Proof. reflexivity. Qed.

(** Reading the token before the cursor, [tokens.at(position - 1)]. *)
Lemma at_previous p :
  fits_size_t p ->
  position p <= N.of_nat (length (tokens p)) ->
  at_ (tokens p) (size_t_sub (position p) 1) =
  match previous p with
  | Some tok => Ok tok
  | None => OutOfRange
  end.
Proof.
  unfold fits_size_t, previous. intros Hfit Hpos.
  destruct (N.eqb_spec (position p) 0) as [H0|H0].
  - rewrite H0, size_t_sub_zero_one. apply at_out_of_range.
    unfold SIZE_MAX. lia.
  - rewrite size_t_sub_small by lia.
    destruct (at_in_range (tokens p) (position p - 1)) as (tok & -> & ->);
      [lia|reflexivity].
Qed.

Lemma previous_advanced p tok :
  current p = Some tok -> previous (advanced p) = Some tok.
Proof.
  intros Hc. unfold previous, advanced. cbn [position set_position tokens].
  destruct (N.eqb_spec (position p + 1) 0) as [H0|H0]; [lia|].
  replace (position p + 1 - 1) with (position p) by lia. exact Hc.
Qed.

Lemma previous_flagged msg p : previous (flagged msg p) = previous p.
Proof. reflexivity. Qed.

Lemma expected_here_current ty p :
  expected_here ty p = true -> exists tok, current p = Some tok /\ type tok = ty.
Proof.
  unfold expected_here. destruct (current p) as [tok|]; [|discriminate].
  intros H. exists tok. split; [reflexivity|].
  apply andb_true_iff in H as [H _].
  destruct (type tok), ty; (reflexivity || discriminate).
Qed.

Lemma orM_eq (a b : M t bool) p x q :
  a p = Ok (x, q) -> orM a b p = if x then Ok (true, q) else b q.
Proof.
  intros Ha. unfold orM. rewrite (bind_Ok _ _ _ _ _ Ha).
  destruct x; reflexivity.
Qed.

(** The four attempts of [parseValue]: the first that matches moves the
    cursor, and the ones before it leave the state alone. *)
Lemma value_attempts_eq p :
  orM (match_ TokenType.Number)
      (orM (match_ TokenType.String)
           (orM (match_ TokenType.Identifier) (match_ TokenType.HexColor))) p
  = Ok (is_value p, if is_value p then advanced p else p).
Proof.
  unfold is_value.
  rewrite (orM_eq _ _ _ _ _ (match_eq TokenType.Number p)).
  destruct (expected_here TokenType.Number p); [reflexivity|].
  rewrite (orM_eq _ _ _ _ _ (match_eq TokenType.String p)).
  destruct (expected_here TokenType.String p); [reflexivity|].
  rewrite (orM_eq _ _ _ _ _ (match_eq TokenType.Identifier p)).
  destruct (expected_here TokenType.Identifier p); [reflexivity|].
  rewrite match_eq. cbn [orb].
  destruct (expected_here TokenType.HexColor p); reflexivity.
Qed.

Lemma is_value_current p :
  is_value p = true -> exists tok, current p = Some tok.
Proof.
  unfold is_value. intros H.
  repeat (apply orb_true_iff in H as [H|H]);
    apply expected_here_current in H as (tok & Hc & _); eauto.
Qed.

Lemma parseValue_eq p :
  fits_size_t p ->
  parseValue p =
  if is_value p then Ok (current_text p, advanced p)
  else Ok ("", flagged "Expected a value after '<property>:'." p).
Proof.
  intros Hfit. unfold parseValue.
  rewrite (bind_Ok _ _ _ _ _ (value_attempts_eq p)).
  destruct (is_value p) eqn:Hv; [|reflexivity].
  destruct (is_value_current p Hv) as [tok Hc].
  unfold bind, get, lift, ret.
  rewrite at_previous.
  - rewrite (previous_advanced _ _ Hc). unfold current_text. now rewrite Hc.
  - exact Hfit.
  - apply current_Some in Hc. cbn. lia.
Qed.

(** What the steps of a declaration leave alone. *)
Lemma after_expect_same ty msg p :
  tokens (after_expect ty msg p) = tokens p
  /\ stylesheet (after_expect ty msg p) = stylesheet p
  /\ lexer (after_expect ty msg p) = lexer p.
Proof. unfold after_expect. destruct (expected_here ty p); now cbn. Qed.

Lemma after_value_same p :
  tokens (after_value p) = tokens p
  /\ stylesheet (after_value p) = stylesheet p
  /\ lexer (after_value p) = lexer p.
Proof. unfold after_value. destruct (is_value p); now cbn. Qed.

Lemma after_semicolon_same p :
  tokens (after_semicolon p) = tokens p
  /\ stylesheet (after_semicolon p) = stylesheet p
  /\ lexer (after_semicolon p) = lexer p.
Proof.
  unfold after_semicolon, after_colon, after_property.
  repeat split;
    repeat first [rewrite (proj1 (after_expect_same _ _ _))
                 |rewrite (proj1 (proj2 (after_expect_same _ _ _)))
                 |rewrite (proj2 (proj2 (after_expect_same _ _ _)))
                 |rewrite (proj1 (after_value_same _))
                 |rewrite (proj1 (proj2 (after_value_same _)))
                 |rewrite (proj2 (proj2 (after_value_same _)))];
    reflexivity.
Qed.

Lemma after_expect_fits ty msg p : fits_size_t p -> fits_size_t (after_expect ty msg p).
Proof. unfold fits_size_t. now rewrite (proj1 (after_expect_same ty msg p)). Qed.

Lemma after_expect_position ty msg p :
  position p <= N.of_nat (length (tokens p)) ->
  position (after_expect ty msg p) <= N.of_nat (length (tokens (after_expect ty msg p))).
Proof.
  intros Hpos. unfold after_expect.
  destruct (expected_here ty p) eqn:He; cbn; [|exact Hpos].
  apply expected_here_current in He as (tok & Hc & _).
  apply current_Some in Hc. lia.
Qed.

Lemma parseDeclaration_eq selector p :
  fits_size_t p ->
  position p <= N.of_nat (length (tokens p)) ->
  parseDeclaration selector p =
  match previous (after_property p) with
  | Some tok => Ok (tt, declared selector tok p)
  | None => OutOfRange
  end.
Proof.
  intros Hfit Hpos. unfold parseDeclaration.
  rewrite expect_eq. fold (after_property p).
  unfold bind at 1, get. unfold bind at 1, lift.
  rewrite at_previous;
    [|now apply after_expect_fits|now apply after_expect_position].
  destruct (previous (after_property p)) as [tok|]; [|reflexivity].
  rewrite expect_eq. fold (after_colon p).
  assert (Hv := parseValue_eq (after_colon p)
                  (after_expect_fits _ _ _ (after_expect_fits _ _ _ Hfit))).
  unfold declared, after_semicolon, value_text, after_value.
  destruct (is_value (after_colon p));
    rewrite (bind_Ok _ _ _ _ _ Hv); rewrite expect_eq; reflexivity.
Qed.

Lemma expected_here_true ty p tok :
  current p = Some tok -> type tok = ty -> ty <> TokenType.EndOfFile ->
  expected_here ty p = true.
Proof.
  intros Hc Hty Hne. unfold expected_here. rewrite Hc, Hty.
  destruct ty; try reflexivity. now contradiction Hne.
Qed.

Lemma is_value_true p tok :
  current p = Some tok -> is_value_type (type tok) = true -> is_value p = true.
Proof.
  intros Hc Hty. unfold is_value, expected_here. rewrite Hc.
  destruct (type tok); try discriminate; reflexivity.
Qed.

Lemma current_advanced p i :
  token_at (advanced p) i = token_at p (1 + i).
Proof.
  unfold token_at, advanced. cbn [tokens position set_position].
  now replace (position p + 1 + i) with (position p + (1 + i)) by lia.
Qed.

Lemma current_token_at p : current p = token_at p 0.
Proof. unfold current, token_at. now rewrite N.add_0_r. Qed.

(** A well-formed declaration [property : value ;] under the cursor is
    consumed whole and stored; nothing else changes. *)
Lemma parseDeclaration_well_formed selector p t0 t1 v t3 :
  fits_size_t p ->
  token_at p 0 = Some t0 -> type t0 = TokenType.Identifier ->
  token_at p 1 = Some t1 -> type t1 = TokenType.Colon ->
  token_at p 2 = Some v -> is_value_type (type v) = true ->
  token_at p 3 = Some t3 -> type t3 = TokenType.Semicolon ->
  parseDeclaration selector p =
  Ok (tt, set_stylesheet (store selector (value t0) (value v) (stylesheet p))
                         (set_position (position p + 4) p)).
Proof.
  intros Hfit H0 Ht0 H1 Ht1 H2 Hv H3 Ht3.
  assert (Hpos : position p <= N.of_nat (length (tokens p))).
  { rewrite <- current_token_at in H0. apply current_Some in H0. lia. }
  rewrite (parseDeclaration_eq selector p Hfit Hpos).
  assert (Ea : after_property p = advanced p).
  { unfold after_property, after_expect.
    rewrite (expected_here_true _ p t0);
      [reflexivity|now rewrite current_token_at|exact Ht0|discriminate]. }
  rewrite Ea. rewrite (previous_advanced p t0) by now rewrite current_token_at.
  assert (Eb : after_colon p = advanced (advanced p)).
  { unfold after_colon, after_expect. rewrite Ea.
    rewrite (expected_here_true _ (advanced p) t1);
      [reflexivity|now rewrite current_token_at, current_advanced
      |exact Ht1|discriminate]. }
  assert (Ev : is_value (advanced (advanced p)) = true).
  { apply (is_value_true _ v); [|exact Hv].
    now rewrite current_token_at, !current_advanced. }
  assert (Ec : after_semicolon p = advanced (advanced (advanced (advanced p)))).
  { unfold after_semicolon, after_value, after_expect. rewrite Eb, Ev.
    rewrite (expected_here_true _ (advanced (advanced (advanced p))) t3);
      [reflexivity|now rewrite current_token_at, !current_advanced
      |exact Ht3|discriminate]. }
  unfold declared, value_text, current_text. rewrite Ec, Eb, Ev.
  rewrite current_token_at, !current_advanced. change (1 + (1 + 0)) with 2.
  rewrite H2. unfold advanced, set_stylesheet, set_position. cbn.
  do 3 f_equal. lia.
Qed.

End Declarations.

(** ** Storing *)

Section Store.

Lemma store_lookup selector property val (ss : Stylesheet) :
  store selector property val ss !! selector =
  Some (<[property := val]> (default ∅ (ss !! selector))).
Proof. unfold store. apply lookup_insert_eq. Qed.

Lemma store_lookup_ne selector selector' property val (ss : Stylesheet) :
  selector <> selector' ->
  store selector property val ss !! selector' = ss !! selector'.
Proof. intros Hne. unfold store. now apply lookup_insert_ne. Qed.

Lemma lookup2_store selector property val (ss : Stylesheet) :
  lookup2 (store selector property val ss) selector property = Some val.
Proof. unfold lookup2. rewrite store_lookup. apply lookup_insert_eq. Qed.

Lemma lookup2_store_other_property selector property property' val (ss : Stylesheet) :
  property <> property' ->
  lookup2 (store selector property val ss) selector property' =
  lookup2 ss selector property'.
Proof.
  intros Hne. unfold lookup2. rewrite store_lookup.
  rewrite lookup_insert_ne by exact Hne.
  destruct (ss !! selector); [reflexivity|apply lookup_empty].
Qed.

Lemma dom_store selector property val (ss : Stylesheet) :
  dom (store selector property val ss) = {[selector]} ∪ dom ss.
Proof. unfold store. apply dom_insert_L. Qed.

Lemma store_all_lookup_ne selector selector' ds (ss : Stylesheet) :
  selector <> selector' ->
  store_all selector ds ss !! selector' = ss !! selector'.
Proof.
  intros Hne. revert ss. induction ds as [|d ds IH]; intros ss; cbn.
  - reflexivity.
  - rewrite IH. now apply store_lookup_ne.
Qed.

Lemma lookup2_store_all selector property ds (ss : Stylesheet) :
  lookup2 (store_all selector ds ss) selector property =
  match last_value property ds with
  | Some v => Some v
  | None => lookup2 ss selector property
  end.
Proof.
  revert ss. induction ds as [|d ds IH]; intros ss; cbn.
  - reflexivity.
  - rewrite IH. destruct (last_value property ds); [reflexivity|].
    destruct (String.eqb_spec d.1 property) as [->|Hne].
    + apply lookup2_store.
    + now apply lookup2_store_other_property.
Qed.

Lemma dom_store_all selector ds (ss : Stylesheet) :
  dom (store_all selector ds ss) =
  match ds with
  | [] => dom ss
  | _ :: _ => {[selector]} ∪ dom ss
  end.
Proof.
  revert ss. induction ds as [|d ds IH]; intros ss; cbn.
  - reflexivity.
  - rewrite IH, dom_store. destruct ds; [reflexivity|].
    now rewrite (assoc_L (∪)), (idemp_L (∪)).
Qed.

End Store.

(** ** Declaration blocks *)

Section Blocks.
Import Parser.

Lemma token_at_middle p (pre l post : list Token) i tok :
  tokens p = (pre ++ l ++ post)%list ->
  position p = N.of_nat (length pre) ->
  l !! N.to_nat i = Some tok ->
  token_at p i = Some tok.
Proof.
  intros Htok Hpos Hl. unfold token_at. rewrite Htok, Hpos.
  replace (N.to_nat (N.of_nat (length pre) + i))
    with (length pre + N.to_nat i)%nat by lia.
  rewrite lookup_app_r by lia.
  replace (length pre + N.to_nat i - length pre)%nat with (N.to_nat i) by lia.
  now apply lookup_app_l_Some.
Qed.

Lemma block_turn fuel selector p tok :
  current p = Some tok ->
  type tok <> TokenType.BraceClose ->
  type tok <> TokenType.EndOfFile ->
  parseDeclarationBlock (S fuel) selector p =
  (let* _ := parseDeclaration selector in parseDeclarationBlock fuel selector) p.
Proof.
  intros Hc Hb He. rewrite parseDeclarationBlock_unfold.
  rewrite (bind_Ok _ _ _ _ _ (peek_eq _ _ Hc)).
  destruct (TokenType.eqb (type tok) TokenType.BraceClose) eqn:Eb.
  { destruct (type tok); try discriminate. now contradiction Hb. }
  cbn [negb]. unfold bind at 1. unfold bind at 1.
  rewrite isAtEnd_eq. unfold at_end. rewrite Hc.
  destruct (TokenType.eqb (type tok) TokenType.EndOfFile) eqn:Ee.
  { destruct (type tok); try discriminate. now contradiction He. }
  reflexivity.
Qed.

Lemma block_ends fuel selector p tok :
  current p = Some tok ->
  type tok = TokenType.BraceClose \/ type tok = TokenType.EndOfFile ->
  parseDeclarationBlock fuel selector p = Ok (tt, p).
Proof.
  intros Hc Hty. rewrite parseDeclarationBlock_unfold.
  rewrite (bind_Ok _ _ _ _ _ (peek_eq _ _ Hc)).
  destruct Hty as [Hty|Hty]; rewrite Hty; cbn [TokenType.eqb negb].
  - reflexivity.
  - unfold bind at 1. unfold bind at 1. rewrite isAtEnd_eq.
    unfold at_end. rewrite Hc, Hty. reflexivity.
Qed.

(** A block of well-formed declarations closed by a brace (or cut by the
    end of the input) is consumed whole; its declarations are stored in
    order, and the error state is not touched. *)
Lemma parseDeclarationBlock_well_formed selector ds :
  Forall (fun d => is_value_type (type d.2) = true) ds ->
  forall fuel p pre closer post,
    fits_size_t p ->
    tokens p = (pre ++ block_tokens ds ++ closer :: post)%list ->
    position p = N.of_nat (length pre) ->
    type closer = TokenType.BraceClose \/ type closer = TokenType.EndOfFile ->
    (length ds <= fuel)%nat ->
    parseDeclarationBlock fuel selector p =
    Ok (tt, set_stylesheet (store_all selector ds (stylesheet p))
              (set_position (position p + 4 * N.of_nat (length ds)) p)).
Proof.
  induction 1 as [|d ds Hd Hds IH]; intros fuel p pre closer post Hfit Htok Hpos Hcl Hfuel.
  - cbn in Htok. rewrite (block_ends fuel selector p closer).
    + replace (position p + 4 * N.of_nat (length (@nil (string * Token))))
        with (position p) by (cbn [length]; lia).
      destruct p. reflexivity.
    + rewrite current_token_at.
      now apply (token_at_middle p pre [closer] post 0 closer Htok Hpos).
    + exact Hcl.
  - destruct fuel as [|fuel]; [cbn in Hfuel; lia|].
    cbn [block_tokens] in Htok.
    assert (Htok' : tokens p =
              (pre ++ declaration_tokens d
                   ++ (block_tokens ds ++ closer :: post))%list)
      by now rewrite Htok, <- !app_assoc.
    assert (H0 := token_at_middle p pre _ _ 0 _ Htok' Hpos eq_refl).
    assert (H1 := token_at_middle p pre _ _ 1 _ Htok' Hpos eq_refl).
    assert (H2 := token_at_middle p pre _ _ 2 _ Htok' Hpos eq_refl).
    assert (H3 := token_at_middle p pre _ _ 3 _ Htok' Hpos eq_refl).
    rewrite (block_turn fuel selector p _ (eq_trans (current_token_at p) H0))
      by discriminate.
    rewrite (bind_Ok _ _ _ _ _
               (parseDeclaration_well_formed selector p _ _ _ _ Hfit
                  H0 eq_refl H1 eq_refl H2 Hd H3 eq_refl)).
    rewrite (IH fuel _ (pre ++ declaration_tokens d)%list closer post).
    + replace (position p + 4 * N.of_nat (length (d :: ds)))
        with (position p + 4 + 4 * N.of_nat (length ds)) by (cbn [length]; lia).
      reflexivity.
    + exact Hfit.
    + cbn [tokens set_stylesheet set_position]. now rewrite Htok', <- !app_assoc.
    + cbn [position set_stylesheet set_position]. rewrite Hpos, length_app. cbn. lia.
    + exact Hcl.
    + cbn in Hfuel. lia.
Qed.

End Blocks.

(** ** Tokens no check consumes

    A [BraceOpen] or [Unknown] token inside a declaration block is accepted
    by none of the checks of [parseDeclaration], and the loop of
    [parseDeclarationBlock] goes on for as long as the current token is not a
    closing brace: the cursor stays where it is and the loop never ends. *)

Section Stuck.
Import Parser.

Lemma unmatched_expected ty p tok :
  current p = Some tok -> unmatched tok ->
  ty <> TokenType.BraceOpen -> ty <> TokenType.Unknown ->
  expected_here ty p = false.
Proof.
  intros Hc [Hu|Hu] Hb Hk; unfold expected_here; rewrite Hc, Hu;
    destruct ty; try reflexivity; contradiction.
Qed.

Lemma unmatched_is_value p tok :
  current p = Some tok -> unmatched tok -> is_value p = false.
Proof.
  intros Hc Hu. unfold is_value.
  rewrite !(unmatched_expected _ p tok Hc Hu) by discriminate. reflexivity.
Qed.

Lemma previous_Some p :
  1 <= position p -> position p <= N.of_nat (length (tokens p)) ->
  exists tok, previous p = Some tok.
Proof.
  intros H1 Hle. unfold previous.
  destruct (N.eqb_spec (position p) 0); [lia|].
  apply lookup_lt_is_Some_2. lia.
Qed.

(** One turn on such a token returns, having moved nothing. *)
Lemma parseDeclaration_unmatched selector p tok :
  fits_size_t p -> 1 <= position p ->
  current p = Some tok -> unmatched tok ->
  exists q, parseDeclaration selector p = Ok (tt, q)
            /\ tokens q = tokens p /\ position q = position p.
Proof.
  intros Hfit H1 Hc Hu.
  assert (Hpos : position p <= N.of_nat (length (tokens p)))
    by (apply current_Some in Hc; lia).
  rewrite (parseDeclaration_eq selector p Hfit Hpos).
  assert (Ea : after_property p = flagged "Expected property name." p).
  { unfold after_property, after_expect.
    now rewrite (unmatched_expected _ p tok Hc Hu) by discriminate. }
  rewrite Ea, previous_flagged.
  destruct (previous_Some p H1 Hpos) as [prev ->].
  eexists. split; [reflexivity|].
  unfold declared, after_semicolon, after_colon, after_value, after_expect.
  rewrite Ea.
  rewrite (unmatched_expected TokenType.Colon _ tok) by (auto; discriminate).
  rewrite (unmatched_is_value _ tok) by auto.
  rewrite (unmatched_expected TokenType.Semicolon _ tok) by (auto; discriminate).
  split; reflexivity.
Qed.

Lemma parseDeclarationBlock_unmatched selector fuel :
  forall p tok,
    fits_size_t p -> 1 <= position p ->
    current p = Some tok -> unmatched tok ->
    parseDeclarationBlock fuel selector p = OutOfFuel.
Proof.
  induction fuel as [|fuel IH]; intros p tok Hfit H1 Hc Hu.
  - rewrite parseDeclarationBlock_unfold.
    rewrite (bind_Ok _ _ _ _ _ (peek_eq _ _ Hc)).
    unfold bind. destruct Hu as [Hu|Hu]; rewrite Hu; cbn [TokenType.eqb negb];
      rewrite isAtEnd_eq; unfold at_end; rewrite Hc, Hu; reflexivity.
  - rewrite (block_turn fuel selector p tok Hc)
      by (destruct Hu as [Hu|Hu]; rewrite Hu; discriminate).
    destruct (parseDeclaration_unmatched selector p tok Hfit H1 Hc Hu)
      as (q & Hq & Htok & Hpos).
    rewrite (bind_Ok _ _ _ _ _ Hq).
    apply (IH q tok).
    + unfold fits_size_t. now rewrite Htok.
    + now rewrite Hpos.
    + unfold current. now rewrite Htok, Hpos.
    + exact Hu.
Qed.

Lemma parseRule_block_OutOfFuel fuel p selector p1 :
  parseSelector p = Ok (selector, p1) ->
  parseDeclarationBlock fuel selector
    (after_expect TokenType.BraceOpen "Expected '{' after selector." p1) = OutOfFuel ->
  parseRule fuel p = OutOfFuel.
Proof.
  intros Hsel Hblock. unfold parseRule.
  rewrite (bind_Ok _ _ _ _ _ Hsel). rewrite expect_eq.
  now apply bind_OutOfFuel.
Qed.

Lemma parse_rule_OutOfFuel p :
  at_end p = false -> hadError p = false ->
  (forall fuel, parseRule fuel p = OutOfFuel) ->
  forall fuel, parse fuel p = OutOfFuel.
Proof.
  intros Hend Hflag Hrule [|fuel].
  - rewrite parse_unfold. rewrite (bind_Ok _ _ _ _ _ (isAtEnd_eq p)).
    unfold bind, get. now rewrite Hend, Hflag.
  - rewrite (parse_turn fuel p Hend Hflag). apply bind_OutOfFuel, Hrule.
Qed.

End Stuck.

(** * Whole inputs *)

(** The two rules of the README, and two rules for one selector. *)
Example parse_two_rules :
  exists p,
    run 4 "window { margin: 0; font-size: 14; } button { border-color: blue; }" = Ok p
    /\ Parser.hadError p = false
    /\ Parser.getStylesheet p =
       {[ "window" := {[ "margin" := "0"; "font-size" := "14" ]};
          "button" := {[ "border-color" := "blue" ]} ]}.
Proof.
  eexists. split; [vm_compute; reflexivity|].
  split; vm_compute; reflexivity.
Qed.

Example parse_same_selector_twice :
  exists p,
    run 4 "a { x: 1; y: #08090E; } a { x: 2; }" = Ok p
    /\ Parser.hadError p = false
    /\ Parser.getStylesheet p = {[ "a" := {[ "x" := "2"; "y" := "08090E" ]} ]}.
Proof.
  eexists. split; [vm_compute; reflexivity|].
  split; vm_compute; reflexivity.
Qed.

(** C1: on the input [a { @ }] the call does not return, whatever number of
    loop turns it is given: the [@] is an [Unknown] token that no check of
    [parseDeclaration] consumes, and the loop of [parseDeclarationBlock]
    only ends on a closing brace or at the end of the input. *)
Theorem parse_does_not_return_on_unknown_token :
  forall fuel, run fuel "a { @ }" = OutOfFuel.
Proof.
  intros fuel. unfold run.
  set (p0 := parser_of "a { @ }").
  assert (Hnew : Parser.new "a { @ }" = Ok p0) by (vm_compute; reflexivity).
  rewrite Hnew.
  rewrite (parse_rule_OutOfFuel p0); [reflexivity| | |].
  - vm_compute; reflexivity.
  - vm_compute; reflexivity.
  - intros f. apply (parseRule_block_OutOfFuel f p0 "a" (advanced p0)).
    + vm_compute; reflexivity.
    + apply (parseDeclarationBlock_unmatched "a" f _ (mkToken TokenType.Unknown "@")).
      * vm_compute; reflexivity.
      * vm_compute; discriminate.
      * vm_compute; reflexivity.
      * right; reflexivity.
Qed.

(** C2: on the input [1] the call raises [std::out_of_range]: no token is
    consumed before [parseDeclaration] reads [tokens.at(position - 1)] with
    [position = 0]. *)
Theorem parse_raises_on_leading_number :
  forall extra, run (2 + extra) "1" = OutOfRange.
Proof.
  intros extra.
  assert (H2 : run 2 "1" = OutOfRange) by (vm_compute; reflexivity).
  rewrite (run_more_fuel 2 (2 + extra)); [exact H2|lia|].
  rewrite H2. discriminate.
Qed.

(** C3: on [a { c: #fff; }] the call of [parse] never returns, so that it
    does not complete with the error flag set and the message of the value
    error.  The malformed colour is the [Unknown] token ["<InvalidColor>"];
    the declaration of [c] returns with the cursor still on it, and the loop
    of [parseDeclarationBlock], which tests for ['}'] and the end of the
    input only, parses a declaration at the same token again and again. *)
Theorem parse_does_not_return_on_short_hex_color :
  forall fuel, run fuel "a { c: #fff; }" = OutOfFuel.
Proof.
  intros fuel. unfold run.
  set (p0 := parser_of "a { c: #fff; }").
  assert (Hnew : Parser.new "a { c: #fff; }" = Ok p0) by (vm_compute; reflexivity).
  rewrite Hnew.
  rewrite (parse_rule_OutOfFuel p0); [reflexivity| | |].
  - vm_compute; reflexivity.
  - vm_compute; reflexivity.
  - intros f. apply (parseRule_block_OutOfFuel f p0 "a" (advanced p0)).
    + vm_compute; reflexivity.
    + set (p2 := after_expect _ _ _).
      destruct f as [|f]; [vm_compute; reflexivity|].
      rewrite (block_turn f "a" p2 (mkToken TokenType.Identifier "c"));
        [|vm_compute; reflexivity|discriminate|discriminate].
      set (q := declared "a" (mkToken TokenType.Identifier "c") p2).
      assert (Hq : Parser.parseDeclaration "a" p2 = Ok (tt, q))
        by (vm_compute; reflexivity).
      rewrite (bind_Ok _ _ _ _ _ Hq).
      apply (parseDeclarationBlock_unmatched "a" f _
               (mkToken TokenType.Unknown "<InvalidColor>")).
      * vm_compute; reflexivity.
      * vm_compute; discriminate.
      * vm_compute; reflexivity.
      * right; reflexivity.
Qed.

(** The states on the way to that loop: the tokenizer turns the colour of
    [a { c: #fff; }] into the [Unknown] token ["<InvalidColor>"] and records
    no error of its own; parsing the value of [c] sets the error flag with
    the message of the value error, "Expected a value after '<property>:'.";
    the check for [';'] that follows fails on the same token, so that the
    declaration ends with the message "Expected ';' after property value."
    and the cursor still on the [Unknown] token. *)
Lemma short_hex_color_is_a_value_error :
  let p := parser_of "a { c: #fff; }" in
  let on_colour := advanced (advanced (advanced (advanced p))) in
  Parser.new "a { c: #fff; }" = Ok p
  /\ Parser.hadError p = false
  /\ current on_colour = Some (mkToken TokenType.Unknown "<InvalidColor>")
  /\ Parser.parseValue on_colour =
     Ok ("", flagged "Expected a value after '<property>:'." on_colour)
  /\ exists q,
       (let* _ := Parser.parseSelector in
        let* _ := Parser.match_ TokenType.BraceOpen in
        Parser.parseDeclaration "a") p = Ok (tt, q)
       /\ Parser.hadError q = true
       /\ errMsg (Parser.lastError q) = "Expected ';' after property value."
       /\ current q = Some (mkToken TokenType.Unknown "<InvalidColor>").
Proof.
  intros p on_colour.
  split; [vm_compute; reflexivity|].
  split; [vm_compute; reflexivity|].
  split; [vm_compute; reflexivity|].
  split; [vm_compute; reflexivity|].
  eexists. split; [vm_compute; reflexivity|].
  repeat split; vm_compute; reflexivity.
Qed.

(** C5: an unterminated string loses its last character: the text of the
    token is computed as if a closing quote had been skipped.  Here the
    input is a double quote followed by [abc]. *)
Theorem unterminated_string_loses_last_character :
  Lexer.tokenize (Lexer.mk (String dquote "abc") 0) =
  Ok ([mkToken TokenType.String "ab"; mkToken TokenType.EndOfFile ""],
      Lexer.mk (String dquote "abc") 4).
Proof. vm_compute. reflexivity. Qed.

(** * The claims on declarations *)

(** C9: a block of well-formed declarations of one rule is stored by
    upserts.  After the block, each property of the rule's selector holds
    the value of its last declaration in the block (last write wins), the
    properties the selector already had and the block does not declare keep
    their values (a selector that was present is merged into, not
    replaced), the tables of the other selectors are as before, and the
    selector has one entry: the keys of the stylesheet are those it had,
    with the selector added when the block declares something. *)
Theorem declarations_are_upserts
    (selector : string) (ds : list (string * Token)) (fuel : nat)
    (p : Parser.t) (pre post : list Token) (closer : Token) :
  Forall (fun d => is_value_type (type d.2) = true) ds ->
  fits_size_t p ->
  Parser.tokens p = (pre ++ block_tokens ds ++ closer :: post)%list ->
  Parser.position p = N.of_nat (length pre) ->
  type closer = TokenType.BraceClose \/ type closer = TokenType.EndOfFile ->
  (length ds <= fuel)%nat ->
  exists q,
    Parser.parseDeclarationBlock fuel selector p = Ok (tt, q)
    /\ Parser.stylesheet q = store_all selector ds (Parser.stylesheet p)
    /\ (forall property,
          lookup2 (Parser.stylesheet q) selector property =
          match last_value property ds with
          | Some v => Some v
          | None => lookup2 (Parser.stylesheet p) selector property
          end)
    /\ (forall selector',
          selector <> selector' ->
          Parser.stylesheet q !! selector' = Parser.stylesheet p !! selector')
    /\ dom (Parser.stylesheet q) =
       match ds with
       | [] => dom (Parser.stylesheet p)
       | _ :: _ => {[selector]} ∪ dom (Parser.stylesheet p)
       end
    /\ Parser.hadError q = Parser.hadError p.
Proof.
  intros Hds Hfit Htok Hpos Hcl Hfuel.
  eexists. split.
  - exact (parseDeclarationBlock_well_formed selector ds Hds fuel p pre closer post
             Hfit Htok Hpos Hcl Hfuel).
  - cbn [Parser.stylesheet Parser.set_stylesheet Parser.hadError Parser.set_position].
    split; [reflexivity|]. split; [|split; [|split; [|reflexivity]]].
    + intros property. apply lookup2_store_all.
    + intros selector' Hne. now apply store_all_lookup_ne.
    + apply dom_store_all.
Qed.

(** C9, on the second rule of [a { z: 0; x: 7; } a { x: 1; y: 2; x: 3; }]:
    the cursor is after the second [a {], the stylesheet holds what the
    first rule stored. *)
Lemma declarations_are_upserts_witness :
  let css := "a { z: 0; x: 7; } a { x: 1; y: 2; x: 3; }" in
  let p0 := parser_of css in
  let p := Parser.mk (Parser.lexer p0) (Parser.tokens p0)
             {[ "a" := {[ "z" := "0"; "x" := "7" ]} ]} 13 false
             (mkParseError "" "") in
  let ds := [("x", mkToken TokenType.Number "1");
             ("y", mkToken TokenType.Number "2");
             ("x", mkToken TokenType.Number "3")] in
  let pre := take 13 (Parser.tokens p0) in
  let closer := mkToken TokenType.BraceClose "}" in
  let post := [mkToken TokenType.EndOfFile ""] in
  (let* _ := Parser.parseRule 2 in
   let* _ := Parser.parseSelector in
   Parser.match_ TokenType.BraceOpen) p0 = Ok (true, p)
  /\ Forall (fun d => is_value_type (type d.2) = true) ds
  /\ fits_size_t p
  /\ Parser.tokens p = (pre ++ block_tokens ds ++ closer :: post)%list
  /\ Parser.position p = N.of_nat (length pre)
  /\ (type closer = TokenType.BraceClose \/ type closer = TokenType.EndOfFile)
  /\ (length ds <= 3)%nat
  /\ exists q,
       Parser.parseDeclarationBlock 3 "a" p = Ok (tt, q)
       /\ lookup2 (Parser.stylesheet q) "a" "x" = Some "3"
       /\ lookup2 (Parser.stylesheet q) "a" "y" = Some "2"
       /\ lookup2 (Parser.stylesheet q) "a" "z" = Some "0"
       /\ dom (Parser.stylesheet q) = {[ "a" ]}.
Proof.
  intros css p0 p ds pre closer post.
  assert (H0 : (let* _ := Parser.parseRule 2 in
                let* _ := Parser.parseSelector in
                Parser.match_ TokenType.BraceOpen) p0 = Ok (true, p))
    by (vm_compute; reflexivity).
  assert (H1 : Forall (fun d => is_value_type (type d.2) = true) ds)
    by (repeat constructor).
  assert (H2 : fits_size_t p) by (vm_compute; reflexivity).
  assert (H3 : Parser.tokens p = (pre ++ block_tokens ds ++ closer :: post)%list)
    by (vm_compute; reflexivity).
  assert (H4 : Parser.position p = N.of_nat (length pre)) by (vm_compute; reflexivity).
  assert (H5 : type closer = TokenType.BraceClose \/ type closer = TokenType.EndOfFile)
    by (left; reflexivity).
  assert (H6 : (length ds <= 3)%nat) by (cbn; lia).
  split; [exact H0|]. split; [exact H1|]. split; [exact H2|]. split; [exact H3|].
  split; [exact H4|]. split; [exact H5|]. split; [exact H6|].
  destruct (declarations_are_upserts "a" ds 3 p pre post closer H1 H2 H3 H4 H5 H6)
    as (q & Hq & _ & Hlast & _ & Hdom & _).
  exists q. split; [exact Hq|].
  rewrite !Hlast, Hdom. repeat split; vm_compute; reflexivity.
Defined.

(** C10: parsing a declaration does not always insert an entry.  On the
    input [1], [parse] reaches [parseDeclaration] with no token consumed and
    the error of the missing ['{'] recorded; the property name does not
    match, [tokens.at(position - 1)] is read with [position = 0], and the
    call raises [std::out_of_range] before the store: nothing is
    inserted. *)
Theorem parseDeclaration_raises_at_first_token :
  let p := flagged "Expected '{' after selector." (parser_of "1") in
  (let* _ := Parser.parseSelector in
   let* m := Parser.match_ TokenType.BraceOpen in
   if negb m then Parser.makeError "Expected '{' after selector." else ret tt)
    (parser_of "1") = Ok (tt, p)
  /\ Parser.parseDeclaration "" p = OutOfRange.
Proof. split; vm_compute; reflexivity. Qed.

(** Once at least one token has been consumed, [parseDeclaration] returns
    and has inserted an entry for the selector, whichever of its checks
    failed.  The key of the entry is the text of the
    property name when the current token is an identifier, and otherwise the
    text of the token before the cursor: the one consumed last. *)
Theorem parseDeclaration_stores_after_first_token (selector : string) (p : Parser.t) :
  fits_size_t p ->
  1 <= Parser.position p ->
  Parser.position p <= N.of_nat (length (Parser.tokens p)) ->
  exists key val q,
    Parser.parseDeclaration selector p = Ok (tt, q)
    /\ Parser.stylesheet q = store selector key val (Parser.stylesheet p)
    /\ lookup2 (Parser.stylesheet q) selector key = Some val
    /\ Some key =
       value <$> (if expected_here TokenType.Identifier p
                  then current p else previous p).
Proof.
  intros Hfit H1 Hpos.
  rewrite (parseDeclaration_eq selector p Hfit Hpos).
  assert (Hprev : exists tok,
             previous (after_property p) = Some tok
             /\ (if expected_here TokenType.Identifier p
                 then current p else previous p) = Some tok).
  { unfold after_property, after_expect.
    destruct (expected_here TokenType.Identifier p) eqn:He.
    - apply expected_here_current in He as (tok & Hc & _).
      exists tok. split; [now apply previous_advanced|exact Hc].
    - rewrite previous_flagged.
      destruct (previous_Some p H1 Hpos) as [tok Htok]. now exists tok. }
  destruct Hprev as (tok & -> & ->).
  exists (value tok), (value_text (after_colon p)). eexists.
  split; [reflexivity|].
  assert (Hst : Parser.stylesheet (declared selector tok p) =
                store selector (value tok) (value_text (after_colon p))
                      (Parser.stylesheet p)).
  { unfold declared. cbn [Parser.stylesheet Parser.set_stylesheet].
    now rewrite (proj1 (proj2 (after_semicolon_same p))). }
  split; [exact Hst|]. split; [|reflexivity].
  rewrite Hst. apply lookup2_store.
Qed.

(** In the block of [a { : }] the colon is not a property name, and the
    entry is stored under the text of the brace consumed before it. *)
Lemma parseDeclaration_stores_after_first_token_witness :
  let p := advanced (advanced (parser_of "a { : }")) in
  fits_size_t p
  /\ 1 <= Parser.position p
  /\ Parser.position p <= N.of_nat (length (Parser.tokens p))
  /\ expected_here TokenType.Identifier p = false
  /\ previous p = Some (mkToken TokenType.BraceOpen "{")
  /\ exists val q,
       Parser.parseDeclaration "a" p = Ok (tt, q)
       /\ Parser.stylesheet q = store "a" "{" val (Parser.stylesheet p)
       /\ lookup2 (Parser.stylesheet q) "a" "{" = Some val
       /\ Parser.hadError q = true.
Proof.
  intros p.
  assert (H1 : fits_size_t p) by (vm_compute; reflexivity).
  assert (H2 : 1 <= Parser.position p) by (vm_compute; discriminate).
  assert (H3 : Parser.position p <= N.of_nat (length (Parser.tokens p)))
    by (vm_compute; discriminate).
  assert (H4 : expected_here TokenType.Identifier p = false) by (vm_compute; reflexivity).
  assert (H5 : previous p = Some (mkToken TokenType.BraceOpen "{"))
    by (vm_compute; reflexivity).
  split; [exact H1|]. split; [exact H2|]. split; [exact H3|].
  split; [exact H4|]. split; [exact H5|].
  destruct (parseDeclaration_stores_after_first_token "a" p H1 H2 H3)
    as (key & val & q & Hq & Hst & Hl & Hkey).
  rewrite H4, H5 in Hkey. cbn in Hkey. injection Hkey as ->.
  exists val, q. split; [exact Hq|]. split; [exact Hst|]. split; [exact Hl|].
  assert (Hc : Parser.parseDeclaration "a" p = Ok (tt, declared "a" (mkToken TokenType.BraceOpen "{") p))
    by (vm_compute; reflexivity).
  rewrite Hc in Hq. injection Hq as <-. vm_compute. reflexivity.
Defined.

(** * The tokenizer, branch by branch *)

Section Runs.
Import Lexer.

Lemma bind_inv {St A B : Type} (c : M St A) (k : A -> M St B) s r :
  bind c k s = Ok r -> exists a s', c s = Ok (a, s') /\ k a s' = Ok r.
Proof.
  unfold bind. destruct (c s) as [[a s']| |]; try discriminate. eauto.
Qed.

(** The shape shared by [lexIdentifier] and [lexNumber]: scan a run, then
    take it out of the input with [substr]. *)
Lemma lex_run_eq (ty : TokenType.t) test l :
  position l <= ssize (input l) ->
  ssize (input l) < 2 ^ 64 ->
  (let* l0 := get in
   let start := position l0 in
   let* _ := while_char test in
   let* l1 := get in
   let* text := lift (substr (input l1) start (size_t_sub (position l1) start)) in
   ret (mkToken ty text)) l =
  Ok (mkToken ty (take_while test (rest l)),
      mk (input l) (position l + ssize (take_while test (rest l)))).
Proof.
  intros Hpos Hsize.
  pose proof (take_while_drop_bound test (input l) (position l) Hpos) as Hle.
  fold (rest l) in Hle.
  unfold bind at 1, get. rewrite (bind_Ok _ _ _ _ _ (while_char_eq _ _)).
  unfold bind at 1, get. cbn [input position].
  rewrite size_t_sub_small by lia.
  replace (position l + ssize (take_while test (rest l)) - position l)
    with (ssize (take_while test (rest l))) by lia.
  unfold bind, lift, substr, ret.
  destruct (N.ltb_spec (ssize (input l)) (position l)); [lia|].
  do 3 f_equal.
  replace (N.to_nat (N.min (ssize (take_while test (rest l)))
                           (ssize (input l) - position l)))
    with (String.length (take_while test (rest l)))
    by (unfold ssize in *; lia).
  apply string_take_take_while.
Qed.

Lemma alpha_not_space c :
  isalpha c || Ascii.eqb c "-" = true -> isspace c = false.
Proof.
  destruct c as [[] [] [] [] [] [] [] []]; vm_compute; intros H;
    first [reflexivity | discriminate H].
Qed.

Lemma digit_not_space_not_alpha c :
  isdigit c = true ->
  isspace c = false /\ isalpha c || Ascii.eqb c "-" = false.
Proof.
  destruct c as [[] [] [] [] [] [] [] []]; vm_compute; intros H;
    first [split; reflexivity | discriminate H].
Qed.

End Runs.

(** X1: where the tokenizer meets a letter or a hyphen, it appends one
    [Identifier] token whose text is the longest run of letters, digits and
    hyphens that starts there (so never empty), and leaves the cursor just
    after that run. *)
Theorem tokenize_identifier (tokens : list Token) (l : Lexer.t) :
  Lexer.position l < ssize (Lexer.input l) ->
  ssize (Lexer.input l) < 2 ^ 64 ->
  isalpha (char_at (Lexer.input l) (Lexer.position l))
  || Ascii.eqb (char_at (Lexer.input l) (Lexer.position l)) "-" = true ->
  let word := take_while (fun c => isalnum c || Ascii.eqb c "-") (Lexer.rest l) in
  Lexer.tokenize_step tokens l =
  Ok (push_back tokens (mkToken TokenType.Identifier word),
      Lexer.mk (Lexer.input l) (Lexer.position l + ssize word))
  /\ 1 <= ssize word.
Proof.
  intros Hpos Hsize Hc word. split.
  - unfold Lexer.tokenize_step. unfold bind at 1, get.
    rewrite (alpha_not_space _ Hc), Hc.
    unfold Lexer.lexIdentifier.
    rewrite (bind_Ok _ _ _ _ _
               (lex_run_eq TokenType.Identifier _ l ltac:(lia) Hsize)).
    reflexivity.
  - subst word. rewrite (rest_cons l Hpos).
    pose proof (take_while_first (fun c => isalnum c || Ascii.eqb c "-")
                  (char_at (Lexer.input l) (Lexer.position l))
                  (string_drop (S (N.to_nat (Lexer.position l))) (Lexer.input l)))
      as H1.
    assert (Ht : isalnum (char_at (Lexer.input l) (Lexer.position l))
                 || Ascii.eqb (char_at (Lexer.input l) (Lexer.position l)) "-" = true).
    { unfold isalnum. apply orb_true_iff in Hc as [->| ->];
        [reflexivity|apply orb_true_r]. }
    specialize (H1 Ht). slia.
Qed.

(** X1, on the property name of [font-size: 14;]. *)
Lemma tokenize_identifier_witness :
  let l := Lexer.mk "font-size: 14;" 0 in
  Lexer.position l < ssize (Lexer.input l)
  /\ ssize (Lexer.input l) < 2 ^ 64
  /\ isalpha (char_at (Lexer.input l) (Lexer.position l))
     || Ascii.eqb (char_at (Lexer.input l) (Lexer.position l)) "-" = true
  /\ Lexer.tokenize_step [] l =
     Ok ([mkToken TokenType.Identifier "font-size"], Lexer.mk "font-size: 14;" 9).
Proof.
  intros l.
  assert (H1 : Lexer.position l < ssize (Lexer.input l)) by (vm_compute; reflexivity).
  assert (H2 : ssize (Lexer.input l) < 2 ^ 64) by (vm_compute; reflexivity).
  assert (H3 : isalpha (char_at (Lexer.input l) (Lexer.position l))
               || Ascii.eqb (char_at (Lexer.input l) (Lexer.position l)) "-" = true)
    by (vm_compute; reflexivity).
  split; [exact H1|]. split; [exact H2|]. split; [exact H3|].
  exact (proj1 (tokenize_identifier [] l H1 H2 H3)).
Defined.

(** X2: where the tokenizer meets a decimal digit, it appends one [Number]
    token whose text is the longest run of digits that starts there, and
    leaves the cursor just after it: no sign, point or letter is taken. *)
Theorem tokenize_number (tokens : list Token) (l : Lexer.t) :
  Lexer.position l < ssize (Lexer.input l) ->
  ssize (Lexer.input l) < 2 ^ 64 ->
  isdigit (char_at (Lexer.input l) (Lexer.position l)) = true ->
  let digits := take_while isdigit (Lexer.rest l) in
  Lexer.tokenize_step tokens l =
  Ok (push_back tokens (mkToken TokenType.Number digits),
      Lexer.mk (Lexer.input l) (Lexer.position l + ssize digits)).
Proof.
  intros Hpos Hsize Hc digits.
  unfold Lexer.tokenize_step. unfold bind at 1, get.
  destruct (digit_not_space_not_alpha _ Hc) as [-> ->]. rewrite Hc.
  unfold Lexer.lexNumber.
  rewrite (bind_Ok _ _ _ _ _ (lex_run_eq TokenType.Number _ l ltac:(lia) Hsize)).
  reflexivity.
Qed.

(** X2, on [14px]: the letters are left for the next token. *)
Lemma tokenize_number_witness :
  let l := Lexer.mk "14px" 0 in
  Lexer.position l < ssize (Lexer.input l)
  /\ ssize (Lexer.input l) < 2 ^ 64
  /\ isdigit (char_at (Lexer.input l) (Lexer.position l)) = true
  /\ Lexer.tokenize_step [] l =
     Ok ([mkToken TokenType.Number "14"], Lexer.mk "14px" 2).
Proof.
  intros l.
  assert (H1 : Lexer.position l < ssize (Lexer.input l)) by (vm_compute; reflexivity).
  assert (H2 : ssize (Lexer.input l) < 2 ^ 64) by (vm_compute; reflexivity).
  assert (H3 : isdigit (char_at (Lexer.input l) (Lexer.position l)) = true)
    by (vm_compute; reflexivity).
  split; [exact H1|]. split; [exact H2|]. split; [exact H3|].
  exact (tokenize_number [] l H1 H2 H3).
Defined.

(** X3: where the tokenizer meets a double quote, it appends one [String]
    token and no error is recorded.  When a closing quote follows, the text
    is exactly what stands between the two quotes and the cursor ends after
    the closing quote.  When none follows, the cursor ends at the end of the
    input and the text is what follows the opening quote without its last
    character. *)
Theorem tokenize_string (tokens : list Token) (l : Lexer.t) :
  Lexer.position l < ssize (Lexer.input l) ->
  ssize (Lexer.input l) < 2 ^ 64 ->
  char_at (Lexer.input l) (Lexer.position l) = dquote ->
  let body := string_body (Lexer.input l) (Lexer.position l) in
  Lexer.tokenize_step tokens l =
  if string_closed (Lexer.input l) (Lexer.position l)
  then Ok (push_back tokens (mkToken TokenType.String body),
           Lexer.mk (Lexer.input l) (Lexer.position l + 1 + ssize body + 1))
  else Ok (push_back tokens
             (mkToken TokenType.String (string_take (String.length body - 1) body)),
           Lexer.mk (Lexer.input l) (ssize (Lexer.input l))).
Proof.
  intros Hpos Hsize Hc body.
  unfold Lexer.tokenize_step. unfold bind at 1, get. rewrite Hc.
  change (isspace dquote) with false.
  change (isalpha dquote || Ascii.eqb dquote "-") with false.
  change (isdigit dquote) with false.
  change (Ascii.eqb dquote dquote) with true.
  cbv iota.
  unfold bind. rewrite (lexString_eq l Hpos Hsize). fold body.
  pose proof (take_while_drop_bound (fun c => negb (Ascii.eqb c dquote))
                (Lexer.input l) (Lexer.position l + 1) ltac:(lia)) as Hle.
  fold (string_body (Lexer.input l) (Lexer.position l)) in Hle. fold body in Hle.
  unfold string_closed. fold body.
  destruct (N.ltb_spec (Lexer.position l + 1 + ssize body) (ssize (Lexer.input l)))
    as [Hlt|Hge]; [reflexivity|].
  replace (Lexer.position l + 1 + ssize body) with (ssize (Lexer.input l)) by lia.
  reflexivity.
Qed.

(** X3, on a closed string followed by a semicolon. *)
Lemma tokenize_string_witness :
  let css := String dquote ("Fira Code" ++ String dquote ";") in
  let l := Lexer.mk css 0 in
  Lexer.position l < ssize (Lexer.input l)
  /\ ssize (Lexer.input l) < 2 ^ 64
  /\ char_at (Lexer.input l) (Lexer.position l) = dquote
  /\ Lexer.tokenize_step [] l =
     Ok ([mkToken TokenType.String "Fira Code"], Lexer.mk css 11).
Proof.
  intros css l.
  assert (H1 : Lexer.position l < ssize (Lexer.input l)) by (vm_compute; reflexivity).
  assert (H2 : ssize (Lexer.input l) < 2 ^ 64) by (vm_compute; reflexivity).
  assert (H3 : char_at (Lexer.input l) (Lexer.position l) = dquote)
    by (vm_compute; reflexivity).
  split; [exact H1|]. split; [exact H2|]. split; [exact H3|].
  exact (tokenize_string [] l H1 H2 H3).
Defined.

(** ** Comments *)

Section Comments.
Import Lexer.

Lemma string_drop_head n s c r :
  string_drop n s = String c r ->
  string_drop (S n) s = r /\ String.get n s = Some c /\ (n < String.length s)%nat.
Proof.
  revert s. induction n as [|n IH]; intros [|c' s] H; cbn in *; try discriminate.
  - injection H as -> ->. repeat split. lia.
  - destruct (IH s H) as (H1 & H2 & H3). repeat split; [exact H1|exact H2|lia].
Qed.

Lemma append_length (a b : string) :
  String.length (a ++ b) = (String.length a + String.length b)%nat.
Proof.
  induction a as [|c a IH]; [reflexivity|].
  change (String c a ++ b) with (String c (a ++ b)).
  cbn [String.length]. now rewrite IH.
Qed.

Lemma append_empty_r (a : string) : a ++ "" = a.
Proof.
  induction a as [|c a IH]; [reflexivity|].
  change (String c a ++ "") with (String c (a ++ "")). now rewrite IH.
Qed.

(** The scan stops on the first ["*/"]. *)
Lemma scan_comment_closed body tail pos :
  has_close body = false ->
  scan_comment (body ++ "*/" ++ tail) pos = pos + ssize body.
Proof.
  unfold ssize. revert pos. induction body as [|c body IH]; intros pos Hb.
  - change ("" ++ "*/" ++ tail) with (String "*" (String "/" tail)).
    change (scan_comment (String "*" (String "/" tail)) pos) with pos.
    change (N.of_nat (String.length "")) with 0. lia.
  - cbn [has_close] in Hb. apply orb_false_iff in Hb as [Hc Hb].
    change (String c body ++ "*/" ++ tail) with (String c (body ++ "*/" ++ tail)).
    cbn [scan_comment].
    assert (Hhere : Ascii.eqb c "*"
                    && Ascii.eqb (char_at (body ++ "*/" ++ tail) 0) "/" = false).
    { destruct body as [|c' body]; [|exact Hc].
      change (char_at ("" ++ "*/" ++ tail) 0) with "*"%char.
      apply andb_false_r. }
    rewrite Hhere, IH by exact Hb. cbn [String.length].
    rewrite Nat2N.inj_succ. lia.
Qed.

(** With no ["*/"] the scan runs to the end. *)
Lemma scan_comment_open body pos :
  has_close body = false -> scan_comment body pos = pos + ssize body.
Proof.
  unfold ssize. revert pos. induction body as [|c body IH]; intros pos Hb.
  - change (scan_comment "" pos) with pos.
    change (N.of_nat (String.length "")) with 0. lia.
  - cbn [has_close] in Hb. apply orb_false_iff in Hb as [Hc Hb].
    cbn [scan_comment]. rewrite Hc, IH by exact Hb. cbn [String.length].
    rewrite Nat2N.inj_succ. lia.
Qed.

End Comments.

(** X4: a comment produces no token.  Where the unread text starts with
    the two characters of a comment opening, the turn leaves the token
    vector as it is; the cursor ends just after the first comment close that
    follows the opening, and at the end of the input when there is none (an
    unterminated comment is skipped silently). *)
Theorem tokenize_comment (tokens : list Token) (l : Lexer.t) (body ending : string) :
  ssize (Lexer.input l) < 2 ^ 64 ->
  Lexer.rest l = "/*" ++ body ++ ending ->
  has_close body = false ->
  ending = "" \/ (exists tail, ending = "*/" ++ tail) ->
  Lexer.tokenize_step tokens l =
  Ok (tokens,
      Lexer.mk (Lexer.input l)
        (Lexer.position l + 2 + ssize body
         + match ending with EmptyString => 0 | String _ _ => 2 end)).
Proof.
  intros Hsize Hrest Hbody Hending.
  unfold Lexer.rest in Hrest.
  change ("/*" ++ body ++ ending) with (String "/" (String "*" (body ++ ending)))
    in Hrest.
  destruct (string_drop_head _ _ _ _ Hrest) as (Hrest1 & Hget0 & Hlt0).
  destruct (string_drop_head _ _ _ _ Hrest1) as (Hrest2 & Hget1 & Hlt1).
  assert (Hlen : String.length (Lexer.input l) =
                 (N.to_nat (Lexer.position l) + 2
                  + String.length body + String.length ending)%nat).
  { pose proof (string_drop_length (S (S (N.to_nat (Lexer.position l))))
                  (Lexer.input l)) as H.
    rewrite Hrest2, append_length in H. lia. }
  assert (Hc : char_at (Lexer.input l) (Lexer.position l) = "/"%char)
    by (unfold char_at; now rewrite Hget0).
  assert (Hp : Lexer.peek 1 l = "*"%char).
  { unfold Lexer.peek.
    destruct (N.ltb_spec (Lexer.position l + 1) (ssize (Lexer.input l)));
      [|slia].
    unfold char_at.
    replace (N.to_nat (Lexer.position l + 1)) with (S (N.to_nat (Lexer.position l)))
      by lia.
    now rewrite Hget1. }
  unfold Lexer.tokenize_step. unfold bind at 1, get. rewrite Hc, Hp.
  change (isspace "/") with false.
  change (isalpha "/" || Ascii.eqb "/" "-") with false.
  change (isdigit "/") with false.
  change (Ascii.eqb "/" dquote) with false.
  change (Ascii.eqb "/" ":") with false.
  change (Ascii.eqb "/" ";") with false.
  change (Ascii.eqb "/" "{") with false.
  change (Ascii.eqb "/" "}") with false.
  change (Ascii.eqb "/" "#") with false.
  change (Ascii.eqb "/" "/" && Ascii.eqb "*" "*") with true.
  cbv iota.
  unfold bind at 1, modify. unfold bind at 1.
  unfold Lexer.rest. cbn [Lexer.set_position Lexer.input Lexer.position].
  replace (N.to_nat (Lexer.position l + 2))
    with (S (S (N.to_nat (Lexer.position l)))) by lia.
  rewrite Hrest2.
  unfold bind at 1, get. cbn [Lexer.input Lexer.position].
  destruct Hending as [->|[tail ->]].
  - rewrite append_empty_r.
    rewrite (scan_comment_open body _ Hbody).
    cbn [Lexer.set_position Lexer.input Lexer.position].
    destruct (N.ltb_spec (Lexer.position l + 2 + ssize body) (ssize (Lexer.input l)))
      as [Hlt|Hge].
    + exfalso. cbn [String.length] in Hlen. slia.
    + unfold bind, ret, Lexer.set_position. cbn [Lexer.input Lexer.position].
      now rewrite N.add_0_r.
  - rewrite (scan_comment_closed body tail _ Hbody).
    cbn [Lexer.set_position Lexer.input Lexer.position].
    destruct (N.ltb_spec (Lexer.position l + 2 + ssize body) (ssize (Lexer.input l)))
      as [Hlt|Hge].
    + unfold bind, modify, ret, Lexer.set_position. cbn [Lexer.input Lexer.position].
      reflexivity.
    + exfalso. rewrite append_length in Hlen. cbn [String.length] in Hlen.
      slia.
Qed.

(** X4, on a closed comment that holds a star, before a rule. *)
Lemma tokenize_comment_witness :
  let l := Lexer.mk "/* a * b */ window {}" 0 in
  ssize (Lexer.input l) < 2 ^ 64
  /\ Lexer.rest l = "/*" ++ " a * b " ++ "*/ window {}"
  /\ has_close " a * b " = false
  /\ Lexer.tokenize_step [] l = Ok ([], Lexer.mk "/* a * b */ window {}" 11).
Proof.
  intros l.
  assert (H1 : ssize (Lexer.input l) < 2 ^ 64) by (vm_compute; reflexivity).
  assert (H2 : Lexer.rest l = "/*" ++ " a * b " ++ "*/ window {}")
    by (vm_compute; reflexivity).
  assert (H3 : has_close " a * b " = false) by (vm_compute; reflexivity).
  split; [exact H1|]. split; [exact H2|]. split; [exact H3|].
  exact (tokenize_comment [] l " a * b " "*/ window {}" H1 H2 H3
           (or_intror (ex_intro _ " window {}" eq_refl))).
Defined.

(** ** The whole scan *)

Section WholeScan.
Import Lexer.

Ltac lex_type H :=
  unfold lexIdentifier, lexNumber, lexString, lexHexColor,
    bind, get, while_char, modify, lift, ret in H;
  repeat match type of H with
         | context [if ?b then _ else _] => destruct b
         | context [substr ?s ?a ?b] => destruct (substr s a b)
         end;
  try discriminate H; injection H as <- _.

Lemma lexIdentifier_type l tok l' :
  lexIdentifier l = Ok (tok, l') -> type tok = TokenType.Identifier.
Proof. intros H. lex_type H. reflexivity. Qed.

Lemma lexNumber_type l tok l' :
  lexNumber l = Ok (tok, l') -> type tok = TokenType.Number.
Proof. intros H. lex_type H. reflexivity. Qed.

Lemma lexString_type l tok l' :
  lexString l = Ok (tok, l') -> type tok = TokenType.String.
Proof. intros H. lex_type H; reflexivity. Qed.

Lemma lexHexColor_type l tok l' :
  lexHexColor l = Ok (tok, l') ->
  type tok = TokenType.HexColor \/ type tok = TokenType.Unknown.
Proof. intros H. lex_type H; [right|left]; reflexivity. Qed.

(** A turn appends at most one token, never the [EndOfFile] token. *)
Lemma tokenize_step_tokens tokens l tokens' l' :
  tokenize_step tokens l = Ok (tokens', l') ->
  tokens' = tokens
  \/ exists tok, tokens' = push_back tokens tok /\ type tok <> TokenType.EndOfFile.
Proof.
  intros H. unfold tokenize_step in H. unfold bind at 1, get in H.
  destruct (isspace _).
  { apply bind_inv in H as (u & l1 & _ & H). injection H as <- _. now left. }
  destruct (_ || _).
  { apply bind_inv in H as (tok & l1 & Hlex & H). injection H as <- _.
    right. exists tok. split; [reflexivity|].
    rewrite (lexIdentifier_type _ _ _ Hlex). discriminate. }
  destruct (isdigit _).
  { apply bind_inv in H as (tok & l1 & Hlex & H). injection H as <- _.
    right. exists tok. split; [reflexivity|].
    rewrite (lexNumber_type _ _ _ Hlex). discriminate. }
  destruct (Ascii.eqb _ dquote).
  { apply bind_inv in H as (tok & l1 & Hlex & H). injection H as <- _.
    right. exists tok. split; [reflexivity|].
    rewrite (lexString_type _ _ _ Hlex). discriminate. }
  destruct (Ascii.eqb _ ":").
  { apply bind_inv in H as (u & l1 & _ & H). injection H as <- _.
    right. eexists. split; [reflexivity|discriminate]. }
  destruct (Ascii.eqb _ ";").
  { apply bind_inv in H as (u & l1 & _ & H). injection H as <- _.
    right. eexists. split; [reflexivity|discriminate]. }
  destruct (Ascii.eqb _ "{").
  { apply bind_inv in H as (u & l1 & _ & H). injection H as <- _.
    right. eexists. split; [reflexivity|discriminate]. }
  destruct (Ascii.eqb _ "}").
  { apply bind_inv in H as (u & l1 & _ & H). injection H as <- _.
    right. eexists. split; [reflexivity|discriminate]. }
  destruct (Ascii.eqb _ "#").
  { apply bind_inv in H as (tok & l1 & Hlex & H). injection H as <- _.
    right. exists tok. split; [reflexivity|].
    destruct (lexHexColor_type _ _ _ Hlex) as [-> | ->]; discriminate. }
  destruct (_ && _).
  { apply bind_inv in H as (u1 & l1 & _ & H).
    apply bind_inv in H as (u2 & l2 & _ & H).
    apply bind_inv in H as (u3 & l3 & _ & H).
    apply bind_inv in H as (u4 & l4 & _ & H).
    injection H as <- _. now left. }
  apply bind_inv in H as (u & l1 & _ & H). injection H as <- _.
  right. eexists. split; [reflexivity|discriminate].
Qed.

Lemma tokenize_loop_spec fuel :
  forall tokens l,
    ssize (input l) < 2 ^ 64 ->
    position l <= ssize (input l) ->
    ssize (input l) - position l <= N.of_nat fuel ->
    exists body,
      tokenize_loop fuel tokens l =
      Ok ((tokens ++ body ++ [mkToken TokenType.EndOfFile ""])%list,
          mk (input l) (ssize (input l)))
      /\ Forall (fun tok => type tok <> TokenType.EndOfFile) body
      /\ N.of_nat (length body) <= ssize (input l) - position l.
Proof.
  induction fuel as [|fuel IH]; intros tokens l Hsize Hpos Hfuel;
    cbn [tokenize_loop]; unfold bind at 1, get;
    destruct (N.ltb_spec (position l) (ssize (input l))) as [Hlt|Hge];
    try lia.
  - exists []. unfold ret, push_back.
    assert (E : mk (input l) (ssize (input l)) = l)
      by (destruct l; cbn in *; f_equal; lia).
    rewrite E. split; [reflexivity|]. split; [constructor|cbn; lia].
  - destruct (tokenize_step_progress tokens l Hlt Hsize)
      as (tokens' & l1 & Hstep & Hin & Hl1).
    rewrite (bind_Ok _ _ _ _ _ Hstep).
    destruct (IH tokens' l1) as (body & Hloop & Hbody & Hlen);
      [rewrite Hin; lia..|].
    rewrite Hloop, Hin.
    destruct (tokenize_step_tokens _ _ _ _ Hstep) as [->|(tok & -> & Htok)].
    + exists body. rewrite Hin in Hlen. repeat split; [exact Hbody|lia].
    + exists (tok :: body). unfold push_back. rewrite <- !app_assoc.
      rewrite Hin in Hlen. repeat split; [now constructor|cbn [length]; lia].
  - exists []. unfold ret, push_back.
    assert (E : mk (input l) (ssize (input l)) = l)
      by (destruct l; cbn in *; f_equal; lia).
    rewrite E. split; [reflexivity|]. split; [constructor|cbn; lia].
Qed.

Lemma tokenize_spec css :
  ssize css < 2 ^ 64 ->
  exists body,
    tokenize (mk css 0) =
    Ok ((body ++ [mkToken TokenType.EndOfFile ""])%list, mk css (ssize css))
    /\ Forall (fun tok => type tok <> TokenType.EndOfFile) body
    /\ N.of_nat (length body) <= ssize css.
Proof.
  intros Hsize. unfold tokenize, bind at 1, get. cbn [input].
  destruct (tokenize_loop_spec (String.length css) [] (mk css 0))
    as (body & Hloop & Hbody & Hlen);
    cbn [input position]; try (unfold ssize in *; lia).
  exists body. cbn [input position] in *.
  rewrite Hloop. repeat split; [exact Hbody|lia].
Qed.

End WholeScan.

(** X5: the tokenizer never fails.  For every input it returns, having
    read the input to its end; the vector it returns ends with the
    [EndOfFile] token, holds no other [EndOfFile] token, and has at most one
    token for each character of the input. *)
Theorem tokenize_ends_with_eof (css : string) :
  ssize css < 2 ^ 64 ->
  exists body,
    Lexer.tokenize (Lexer.mk css 0) =
    Ok ((body ++ [mkToken TokenType.EndOfFile ""])%list, Lexer.mk css (ssize css))
    /\ Forall (fun tok => type tok <> TokenType.EndOfFile) body
    /\ (length body <= String.length css)%nat.
Proof.
  intros Hsize. destruct (tokenize_spec css Hsize) as (body & Htok & Hbody & Hlen).
  exists body. repeat split; [exact Htok|exact Hbody|slia].
Qed.

(** X5, on a text with a comment, an unclosed colour and a stray sign. *)
Lemma tokenize_ends_with_eof_witness :
  let css := "/* c */ a { c: #fff @" in
  ssize css < 2 ^ 64
  /\ exists body,
       Lexer.tokenize (Lexer.mk css 0) =
       Ok ((body ++ [mkToken TokenType.EndOfFile ""])%list, Lexer.mk css (ssize css))
       /\ (length body <= String.length css)%nat.
Proof.
  intros css.
  assert (H1 : ssize css < 2 ^ 64) by (vm_compute; reflexivity).
  split; [exact H1|].
  destruct (tokenize_ends_with_eof css H1) as (body & Htok & _ & Hlen).
  exists body. split; [exact Htok|exact Hlen].
Defined.

(** * The parser on vectors the tokenizer makes *)

Section Inside.
Import Parser.

Lemma eof_terminated_last toks :
  eof_terminated toks ->
  exists e, toks !! pred (length toks) = Some e /\ type e = TokenType.EndOfFile.
Proof.
  unfold eof_terminated. rewrite last_lookup.
  destruct (toks !! pred (length toks)) as [e|]; [|discriminate].
  cbn. intros H. injection H as H. eauto.
Qed.

Lemma inside_current p : inside p -> exists tok, current p = Some tok.
Proof.
  intros (_ & _ & Hpos). unfold current. apply lookup_lt_is_Some_2. lia.
Qed.

Lemma expected_here_not_end ty p : expected_here ty p = true -> at_end p = false.
Proof.
  unfold expected_here, at_end. destruct (current p) as [tok|]; [|discriminate].
  intros H. apply andb_true_iff in H as [_ H]. now apply negb_true_iff in H.
Qed.

Lemma is_value_not_end p : is_value p = true -> at_end p = false.
Proof.
  unfold is_value. intros H.
  repeat (apply orb_true_iff in H as [H|H]); now apply expected_here_not_end in H.
Qed.

(** Away from the [EndOfFile] token the next index is still in the
    vector. *)
Lemma inside_advanced p : inside p -> at_end p = false -> inside (advanced p).
Proof.
  intros (Hfit & Heof & Hpos) Hend. split; [exact Hfit|]. split; [exact Heof|].
  cbn [advanced set_position position tokens].
  destruct (eof_terminated_last _ Heof) as (e & He & Hty).
  unfold at_end, current in Hend.
  destruct (N.eq_dec (position p + 1) (N.of_nat (length (tokens p)))) as [E|E]; [|lia].
  replace (N.to_nat (position p)) with (pred (length (tokens p))) in Hend by lia.
  rewrite He, Hty in Hend. discriminate.
Qed.

Lemma inside_flagged msg p : inside p -> inside (flagged msg p).
Proof. intros H. exact H. Qed.

Lemma inside_set_stylesheet ss p : inside p -> inside (set_stylesheet ss p).
Proof. intros H. exact H. Qed.

Lemma inside_after_expect ty msg p : inside p -> inside (after_expect ty msg p).
Proof.
  intros H. unfold after_expect. destruct (expected_here ty p) eqn:E.
  - apply inside_advanced; [exact H|now apply expected_here_not_end in E].
  - now apply inside_flagged.
Qed.

Lemma inside_after_value p : inside p -> inside (after_value p).
Proof.
  intros H. unfold after_value. destruct (is_value p) eqn:E.
  - apply inside_advanced; [exact H|now apply is_value_not_end].
  - now apply inside_flagged.
Qed.

Lemma after_expect_moves ty msg p :
  position p <= position (after_expect ty msg p) <= position p + 1.
Proof. unfold after_expect. destruct (expected_here ty p); cbn; lia. Qed.

Lemma after_value_moves p :
  position p <= position (after_value p) <= position p + 1.
Proof. unfold after_value. destruct (is_value p); cbn; lia. Qed.

Lemma after_expect_flag ty msg p :
  hadError p = true -> hadError (after_expect ty msg p) = true.
Proof. unfold after_expect. destruct (expected_here ty p); now cbn. Qed.

Lemma after_expect_unmoved_flag ty msg p :
  position (after_expect ty msg p) = position p ->
  hadError (after_expect ty msg p) = true.
Proof.
  unfold after_expect. destruct (expected_here ty p); cbn; [lia|reflexivity].
Qed.

Lemma parseSelector_eq p :
  fits_size_t p ->
  parseSelector p =
  Ok (if expected_here TokenType.Identifier p then current_text p else "",
      if expected_here TokenType.Identifier p then advanced p else p).
Proof.
  intros Hfit. unfold parseSelector.
  rewrite (bind_Ok _ _ _ _ _ (match_eq TokenType.Identifier p)).
  fold (advanced p).
  destruct (expected_here TokenType.Identifier p) eqn:He; [|reflexivity].
  apply expected_here_current in He as (tok & Hc & _).
  unfold bind, get, lift, ret. rewrite at_previous.
  - rewrite (previous_advanced _ _ Hc). unfold current_text. now rewrite Hc.
  - exact Hfit.
  - apply current_Some in Hc. cbn. lia.
Qed.

End Inside.

(** X6: [parseValue] accepts exactly the tokens of type [Number], [String],
    [Identifier] and [HexColor].  On such a token it returns the text of the
    token as it is, whatever its type, and moves the cursor by one; on any
    other token, and at the end of the input, it returns the empty text,
    leaves the cursor where it is and records "Expected a value after
    '<property>:'.". *)
Theorem parseValue_takes_four_kinds (p : Parser.t) :
  fits_size_t p ->
  exists text q,
    Parser.parseValue p = Ok (text, q)
    /\ match current p with
       | Some tok =>
           if is_value_type (type tok)
           then text = value tok /\ q = advanced p
           else text = ""
                /\ q = flagged "Expected a value after '<property>:'." p
       | None =>
           text = "" /\ q = flagged "Expected a value after '<property>:'." p
       end.
Proof.
  intros Hfit. rewrite (parseValue_eq p Hfit).
  unfold is_value, expected_here, current_text.
  destruct (current p) as [tok|]; [|cbn; eauto].
  destruct (type tok); cbn; eauto.
Qed.

(** X6, on the colour of [c: #08090E;]. *)
Lemma parseValue_takes_four_kinds_witness :
  let p := advanced (advanced (parser_of "c: #08090E;")) in
  fits_size_t p
  /\ current p = Some (mkToken TokenType.HexColor "08090E")
  /\ Parser.parseValue p = Ok ("08090E", advanced p).
Proof.
  intros p.
  assert (H1 : fits_size_t p) by (vm_compute; reflexivity).
  assert (H2 : current p = Some (mkToken TokenType.HexColor "08090E"))
    by (vm_compute; reflexivity).
  split; [exact H1|]. split; [exact H2|].
  destruct (parseValue_takes_four_kinds p H1) as (text & q & Hq & Hcase).
  rewrite H2 in Hcase. cbn in Hcase. destruct Hcase as [-> ->]. exact Hq.
Defined.

(** X7: the selector is optional.  [parseSelector] returns the text of the
    current token and moves past it when that token is an [Identifier];
    otherwise it returns the empty name and changes nothing: no error is
    recorded for a missing selector. *)
Theorem parseSelector_is_optional (p : Parser.t) :
  fits_size_t p ->
  exists name q,
    Parser.parseSelector p = Ok (name, q)
    /\ match current p with
       | Some tok =>
           if TokenType.eqb (type tok) TokenType.Identifier
           then name = value tok /\ q = advanced p
           else name = "" /\ q = p
       | None => name = "" /\ q = p
       end.
Proof.
  intros Hfit. rewrite (parseSelector_eq p Hfit).
  unfold expected_here, current_text.
  destruct (current p) as [tok|]; [|cbn; eauto].
  destruct (type tok); cbn; eauto.
Qed.

(** X7, on a rule without a name. *)
Lemma parseSelector_is_optional_witness :
  let p := parser_of "{ x: 1; }" in
  fits_size_t p /\ Parser.parseSelector p = Ok ("", p).
Proof.
  intros p.
  assert (H1 : fits_size_t p) by (vm_compute; reflexivity).
  split; [exact H1|].
  destruct (parseSelector_is_optional p H1) as (name & q & Hq & Hcase).
  assert (H2 : current p = Some (mkToken TokenType.BraceOpen "{"))
    by (vm_compute; reflexivity).
  rewrite H2 in Hcase. cbn in Hcase. destruct Hcase as [-> ->]. exact Hq.
Defined.

(** ** How far a declaration moves the cursor *)

Section Moves.
Import Parser.

Lemma after_expect_unmoved ty msg p :
  position (after_expect ty msg p) = position p ->
  after_expect ty msg p = flagged msg p /\ expected_here ty p = false.
Proof.
  unfold after_expect. destruct (expected_here ty p); cbn; [lia|auto].
Qed.

Lemma after_value_unmoved p :
  position (after_value p) = position p ->
  after_value p = flagged "Expected a value after '<property>:'." p
  /\ is_value p = false.
Proof.
  unfold after_value. destruct (is_value p); cbn; [lia|auto].
Qed.

Lemma after_semicolon_inside p : inside p -> inside (after_semicolon p).
Proof.
  intros H. unfold after_semicolon, after_colon, after_property.
  now repeat first [apply inside_after_expect | apply inside_after_value].
Qed.

Lemma after_semicolon_moves p :
  position p <= position (after_semicolon p) <= position p + 4.
Proof.
  unfold after_semicolon, after_colon, after_property.
  pose proof (after_expect_moves TokenType.Identifier "Expected property name." p).
  pose proof (after_expect_moves TokenType.Colon "Expected ':' after property name."
                (after_expect TokenType.Identifier "Expected property name." p)).
  pose proof (after_value_moves
                (after_expect TokenType.Colon "Expected ':' after property name."
                   (after_expect TokenType.Identifier "Expected property name." p))).
  pose proof (after_expect_moves TokenType.Semicolon
                "Expected ';' after property value."
                (after_value
                   (after_expect TokenType.Colon "Expected ':' after property name."
                      (after_expect TokenType.Identifier "Expected property name." p)))).
  lia.
Qed.

(** A declaration that leaves the cursor where it was has failed its four
    checks on the same token, and has recorded an error. *)
Lemma after_semicolon_unmoved p :
  position (after_semicolon p) = position p ->
  expected_here TokenType.Identifier p = false
  /\ expected_here TokenType.Colon p = false
  /\ is_value p = false
  /\ expected_here TokenType.Semicolon p = false
  /\ hadError (after_semicolon p) = true.
Proof.
  intros H. pose proof (after_semicolon_moves p) as Hm.
  unfold after_semicolon, after_colon, after_property in *.
  pose proof (after_expect_moves TokenType.Identifier "Expected property name." p) as Ha.
  set (pa := after_expect TokenType.Identifier "Expected property name." p) in *.
  pose proof (after_expect_moves TokenType.Colon "Expected ':' after property name." pa)
    as Hb.
  set (pb := after_expect TokenType.Colon "Expected ':' after property name." pa) in *.
  pose proof (after_value_moves pb) as Hc.
  set (pc := after_value pb) in *.
  pose proof (after_expect_moves TokenType.Semicolon
                "Expected ';' after property value." pc) as Hd.
  destruct (after_expect_unmoved TokenType.Identifier "Expected property name." p)
    as [Ea E1]; [fold pa; lia|].
  destruct (after_expect_unmoved TokenType.Colon "Expected ':' after property name." pa)
    as [Eb E2]; [fold pb; lia|].
  destruct (after_value_unmoved pb) as [Ec E3]; [fold pc; lia|].
  destruct (after_expect_unmoved TokenType.Semicolon
              "Expected ';' after property value." pc) as [Ed E4]; [lia|].
  fold pa in Ea. fold pb in Eb. fold pc in Ec.
  rewrite Ed. split; [exact E1|].
  rewrite Ea in E2. rewrite Eb, Ea in E3. rewrite Ec, Eb, Ea in E4.
  repeat split; assumption.
Qed.

Lemma after_semicolon_progress p tok :
  current p = Some tok ->
  ~ unmatched tok ->
  type tok <> TokenType.BraceClose ->
  type tok <> TokenType.EndOfFile ->
  position p < position (after_semicolon p).
Proof.
  intros Hc Hu Hb He. pose proof (after_semicolon_moves p) as Hm.
  destruct (N.eq_dec (position (after_semicolon p)) (position p)) as [E|E]; [|lia].
  exfalso. destruct (after_semicolon_unmoved p E) as (E1 & E2 & E3 & E4 & _).
  unfold is_value, expected_here in *. rewrite Hc in *.
  unfold unmatched in Hu.
  destruct (type tok); cbn in *; try discriminate; try contradiction; tauto.
Qed.

Lemma after_semicolon_flag p :
  hadError p = true -> hadError (after_semicolon p) = true.
Proof.
  intros H. unfold after_semicolon, after_colon, after_property, after_value.
  apply after_expect_flag.
  destruct (is_value _); cbn; [|reflexivity].
  now do 2 apply after_expect_flag.
Qed.

(** Once a token has been consumed, a declaration returns. *)
Lemma parseDeclaration_inside selector p :
  inside p -> 1 <= position p ->
  exists tok, parseDeclaration selector p = Ok (tt, declared selector tok p).
Proof.
  intros (Hfit & Heof & Hpos) H1.
  rewrite (parseDeclaration_eq selector p Hfit ltac:(lia)).
  unfold after_property, after_expect.
  destruct (expected_here TokenType.Identifier p) eqn:He.
  - apply expected_here_current in He as (tok & Hc & _).
    rewrite (previous_advanced p tok Hc). eauto.
  - rewrite previous_flagged.
    destruct (previous_Some p H1 ltac:(lia)) as [tok ->]. eauto.
Qed.

End Moves.

(** X8: once a token has been consumed, a declaration always returns, and
    it moves the cursor forward by at most four tokens.  It moves by at
    least one token unless the current token is an opening brace, a closing
    brace, an [Unknown] token or the [EndOfFile] token; when it does not
    move, the error flag is set on return. *)
Theorem parseDeclaration_moves_up_to_four (selector : string) (p : Parser.t) :
  inside p ->
  1 <= Parser.position p ->
  exists q tok,
    Parser.parseDeclaration selector p = Ok (tt, q)
    /\ current p = Some tok
    /\ Parser.tokens q = Parser.tokens p
    /\ Parser.position p <= Parser.position q <= Parser.position p + 4
    /\ (Parser.position q = Parser.position p <->
        type tok = TokenType.BraceOpen \/ type tok = TokenType.BraceClose
        \/ type tok = TokenType.Unknown \/ type tok = TokenType.EndOfFile)
    /\ (Parser.position q = Parser.position p ->
        Parser.hadError q = true /\ inside q).
Proof.
  intros Hin H1.
  destruct (parseDeclaration_inside selector p Hin H1) as [prev Hq].
  destruct (inside_current p Hin) as [tok Hc].
  exists (declared selector prev p), tok.
  split; [exact Hq|]. split; [exact Hc|].
  unfold declared.
  cbn [Parser.tokens Parser.position Parser.hadError Parser.set_stylesheet].
  split; [exact (proj1 (after_semicolon_same p))|].
  split; [exact (after_semicolon_moves p)|].
  split.
  - split.
    + intros E. destruct (after_semicolon_unmoved p E) as (E1 & E2 & E3 & E4 & _).
      unfold is_value, expected_here in *. rewrite Hc in *.
      destruct (type tok); cbn in *; try discriminate; tauto.
    + intros Hty.
      destruct (N.eq_dec (Parser.position (after_semicolon p)) (Parser.position p))
        as [E|E]; [exact E|].
      exfalso.
      assert (Hlt : Parser.position p < Parser.position (after_semicolon p))
        by (pose proof (after_semicolon_moves p); lia).
      clear E.
      assert (E1 : expected_here TokenType.Identifier p = false)
        by (unfold expected_here; rewrite Hc;
            destruct Hty as [-> | [-> | [-> | ->]]]; reflexivity).
      assert (E2 : expected_here TokenType.Colon p = false)
        by (unfold expected_here; rewrite Hc;
            destruct Hty as [-> | [-> | [-> | ->]]]; reflexivity).
      assert (E3 : is_value p = false)
        by (unfold is_value, expected_here; rewrite Hc;
            destruct Hty as [-> | [-> | [-> | ->]]]; reflexivity).
      assert (E4 : expected_here TokenType.Semicolon p = false)
        by (unfold expected_here; rewrite Hc;
            destruct Hty as [-> | [-> | [-> | ->]]]; reflexivity).
      unfold after_semicolon, after_colon, after_property, after_value,
        after_expect in Hlt.
      rewrite E1 in Hlt.
      change (expected_here TokenType.Colon (flagged "Expected property name." p))
        with (expected_here TokenType.Colon p) in Hlt.
      rewrite E2 in Hlt.
      change (is_value (flagged "Expected ':' after property name."
                          (flagged "Expected property name." p)))
        with (is_value p) in Hlt.
      rewrite E3 in Hlt.
      change (expected_here TokenType.Semicolon
                (flagged "Expected a value after '<property>:'."
                   (flagged "Expected ':' after property name."
                      (flagged "Expected property name." p))))
        with (expected_here TokenType.Semicolon p) in Hlt.
      rewrite E4 in Hlt. cbn in Hlt. lia.
  - intros E. split.
    + exact (proj2 (proj2 (proj2 (proj2 (after_semicolon_unmoved p E))))).
    + apply inside_set_stylesheet. now apply after_semicolon_inside.
Qed.

(** X8, on the declaration [x 1;] of [a { x 1; }], which lacks its colon:
    three tokens are consumed. *)
Lemma parseDeclaration_moves_up_to_four_witness :
  let p := advanced (advanced (parser_of "a { x 1; }")) in
  inside p
  /\ 1 <= Parser.position p
  /\ exists q,
       Parser.parseDeclaration "a" p = Ok (tt, q)
       /\ Parser.position p <= Parser.position q <= Parser.position p + 4.
Proof.
  intros p.
  assert (H1 : inside p).
  { split; [vm_compute; reflexivity|].
    split; vm_compute; reflexivity. }
  assert (H2 : 1 <= Parser.position p) by (vm_compute; discriminate).
  split; [exact H1|]. split; [exact H2|].
  destruct (parseDeclaration_moves_up_to_four "a" p H1 H2)
    as (q & tok & Hq & _ & _ & Hm & _).
  exists q. split; [exact Hq|exact Hm].
Defined.

(** ** Loops that return, and loops that do not *)

Section Loops.
Import Parser.

Lemma declared_facts selector tok p :
  inside p ->
  inside (declared selector tok p)
  /\ tokens (declared selector tok p) = tokens p
  /\ position (declared selector tok p) = position (after_semicolon p)
  /\ (hadError p = true -> hadError (declared selector tok p) = true).
Proof.
  intros Hin. unfold declared.
  cbn [tokens position hadError set_stylesheet].
  split; [apply inside_set_stylesheet; now apply after_semicolon_inside|].
  split; [exact (proj1 (after_semicolon_same p))|].
  split; [reflexivity|apply after_semicolon_flag].
Qed.

Lemma block_no_fuel selector p tok :
  current p = Some tok ->
  type tok <> TokenType.BraceClose ->
  type tok <> TokenType.EndOfFile ->
  parseDeclarationBlock 0 selector p = OutOfFuel.
Proof.
  intros Hc Hb He. rewrite parseDeclarationBlock_unfold.
  rewrite (bind_Ok _ _ _ _ _ (peek_eq _ _ Hc)).
  destruct (TokenType.eqb (type tok) TokenType.BraceClose) eqn:Eb.
  { destruct (type tok); try discriminate. now contradiction Hb. }
  cbn [negb]. unfold bind at 1. unfold bind at 1.
  rewrite isAtEnd_eq. unfold at_end. rewrite Hc.
  destruct (TokenType.eqb (type tok) TokenType.EndOfFile) eqn:Ee.
  { destruct (type tok); try discriminate. now contradiction He. }
  reflexivity.
Qed.

Lemma closes_dec (tok : Token) :
  {type tok = TokenType.BraceClose \/ type tok = TokenType.EndOfFile}
  + {type tok <> TokenType.BraceClose /\ type tok <> TokenType.EndOfFile}.
Proof.
  destruct (type tok); first [left; auto; fail | right; split; discriminate].
Qed.

Lemma unmatched_dec (tok : Token) : {unmatched tok} + {~ unmatched tok}.
Proof.
  unfold unmatched.
  destruct (type tok);
    first [left; auto; fail | right; intros [H|H]; discriminate H].
Qed.

(** The loop of a block, once a token has been consumed: it uses up its
    fuel or returns, the cursor on a closing brace or on [EndOfFile]. *)
Lemma block_safe selector fuel :
  forall p,
    inside p -> 1 <= position p ->
    parseDeclarationBlock fuel selector p = OutOfFuel
    \/ exists q,
         parseDeclarationBlock fuel selector p = Ok (tt, q)
         /\ inside q /\ tokens q = tokens p /\ position p <= position q
         /\ block_done q
         /\ (hadError p = true -> hadError q = true).
Proof.
  induction fuel as [|fuel IH]; intros p Hin H1;
    destruct (inside_current p Hin) as [tok Hc];
    destruct (closes_dec tok) as [Hcl|[Hb He]].
  - right. exists p. rewrite (block_ends 0 selector p tok Hc Hcl).
    split; [reflexivity|]. split; [exact Hin|]. split; [reflexivity|].
    split; [lia|]. split; [now exists tok|auto].
  - left. now apply (block_no_fuel selector p tok).
  - right. exists p. rewrite (block_ends (S fuel) selector p tok Hc Hcl).
    split; [reflexivity|]. split; [exact Hin|]. split; [reflexivity|].
    split; [lia|]. split; [now exists tok|auto].
  - rewrite (block_turn fuel selector p tok Hc Hb He).
    destruct (parseDeclaration_inside selector p Hin H1) as [prev Hq].
    rewrite (bind_Ok _ _ _ _ _ Hq).
    destruct (declared_facts selector prev p Hin) as (Hin1 & Htok1 & Hpos1 & Hflag1).
    pose proof (after_semicolon_moves p) as Hm.
    destruct (IH (declared selector prev p) Hin1 ltac:(lia))
      as [Hout|(q & Hq2 & Hin2 & Htok2 & Hpos2 & Hdone & Hflag2)].
    + now left.
    + right. exists q. rewrite Hq2.
      split; [reflexivity|]. split; [exact Hin2|]. split; [congruence|].
      split; [lia|]. split; [exact Hdone|].
      intros Hf. apply Hflag2, Hflag1, Hf.
Qed.

Lemma inside_last_is_eof p tok :
  inside p -> current p = Some tok ->
  N.of_nat (length (tokens p)) - 1 <= position p ->
  type tok = TokenType.EndOfFile.
Proof.
  intros (_ & Heof & Hpos) Hc Hlast.
  destruct (eof_terminated_last _ Heof) as (e & He & Hty).
  unfold current in Hc.
  replace (N.to_nat (position p)) with (pred (length (tokens p))) in Hc by lia.
  congruence.
Qed.

(** A block that has not returned within the number of tokens left never
    returns. *)
Lemma block_soon_or_never selector fuel :
  forall p,
    inside p -> 1 <= position p ->
    N.of_nat (length (tokens p)) - 1 - position p <= N.of_nat fuel ->
    parseDeclarationBlock fuel selector p = OutOfFuel ->
    forall fuel', parseDeclarationBlock fuel' selector p = OutOfFuel.
Proof.
  induction fuel as [|fuel IH]; intros p Hin H1 Hfuel Hout;
    destruct (inside_current p Hin) as [tok Hc];
    destruct (closes_dec tok) as [Hcl|[Hb He]];
    try (rewrite (block_ends _ selector p tok Hc Hcl) in Hout; discriminate).
  - exfalso. apply He. apply (inside_last_is_eof p tok Hin Hc).
    destruct Hin as (_ & _ & Hpos). lia.
  - destruct (unmatched_dec tok) as [Hu|Hu].
    { intros fuel'.
      apply (parseDeclarationBlock_unmatched selector fuel' p tok);
        try assumption. apply Hin. }
    rewrite (block_turn fuel selector p tok Hc Hb He) in Hout.
    destruct (parseDeclaration_inside selector p Hin H1) as [prev Hq].
    rewrite (bind_Ok _ _ _ _ _ Hq) in Hout.
    destruct (declared_facts selector prev p Hin) as (Hin1 & Htok1 & Hpos1 & _).
    pose proof (after_semicolon_progress p tok Hc Hu Hb He) as Hprog.
    assert (Hnever : forall fuel',
               parseDeclarationBlock fuel' selector (declared selector prev p)
               = OutOfFuel).
    { apply IH; try assumption; try lia. rewrite Htok1. lia. }
    intros [|fuel'].
    + now apply (block_no_fuel selector p tok).
    + rewrite (block_turn fuel' selector p tok Hc Hb He).
      rewrite (bind_Ok _ _ _ _ _ Hq). apply Hnever.
Qed.

End Loops.

(** ** Rules *)

Section Rules.
Import Parser.

Lemma parseRule_eq fuel p :
  fits_size_t p ->
  parseRule fuel p =
  (let* _ := parseDeclarationBlock fuel (rule_selector p) in
   let* m2 := match_ TokenType.BraceClose in
   if negb m2 then makeError "Expected '}' after declaration block."
   else ret tt) (before_block p).
Proof.
  intros Hfit. unfold parseRule.
  rewrite (bind_Ok _ _ _ _ _ (parseSelector_eq p Hfit)).
  rewrite expect_eq. reflexivity.
Qed.

Lemma rule_close_eq p :
  (let* m2 := match_ TokenType.BraceClose in
   if negb m2 then makeError "Expected '}' after declaration block."
   else ret tt) p =
  Ok (tt, after_expect TokenType.BraceClose
            "Expected '}' after declaration block." p).
Proof.
  rewrite (bind_Ok _ _ _ _ _ (match_eq TokenType.BraceClose p)).
  unfold after_expect, advanced.
  destruct (expected_here TokenType.BraceClose p); reflexivity.
Qed.

Lemma selector_state_inside p :
  inside p -> inside (if expected_here TokenType.Identifier p then advanced p else p).
Proof.
  intros Hin. destruct (expected_here TokenType.Identifier p) eqn:E; [|exact Hin].
  apply inside_advanced; [exact Hin|now apply expected_here_not_end in E].
Qed.

Lemma before_block_facts p :
  inside p -> rule_can_start p ->
  inside (before_block p)
  /\ tokens (before_block p) = tokens p
  /\ position p <= position (before_block p)
  /\ (1 <= position (before_block p) \/ block_done (before_block p))
  /\ (position (before_block p) = position p -> hadError (before_block p) = true)
  /\ (hadError p = true -> hadError (before_block p) = true).
Proof.
  intros Hin Hstart. unfold before_block.
  set (p1 := if expected_here TokenType.Identifier p then advanced p else p).
  assert (Hin1 : inside p1) by now apply selector_state_inside.
  assert (Htok1 : tokens p1 = tokens p)
    by (subst p1; destruct (expected_here _ p); reflexivity).
  assert (Hpos1 : position p <= position p1)
    by (subst p1; destruct (expected_here _ p); cbn; lia).
  assert (Hflag1 : hadError p1 = hadError p)
    by (subst p1; destruct (expected_here _ p); reflexivity).
  pose proof (after_expect_moves TokenType.BraceOpen "Expected '{' after selector." p1)
    as Hm.
  split; [now apply inside_after_expect|].
  split; [rewrite (proj1 (after_expect_same _ _ p1)); exact Htok1|].
  split; [lia|].
  split.
  - destruct Hstart as [H1|(tok & Hc & Hty)]; [left; lia|].
    clear Hin1 Htok1 Hpos1 Hflag1 Hm. subst p1.
    destruct (type tok) eqn:Ety; try discriminate Hty.
    + rewrite (expected_here_true TokenType.Identifier p tok Hc Ety) by discriminate.
      left. pose proof (after_expect_moves TokenType.BraceOpen
                          "Expected '{' after selector." (advanced p)) as Hm.
      cbn [advanced position set_position] in Hm. lia.
    + assert (E : expected_here TokenType.Identifier p = false)
        by (unfold expected_here; rewrite Hc, Ety; reflexivity).
      rewrite E. left. unfold after_expect.
      rewrite (expected_here_true TokenType.BraceOpen p tok Hc Ety) by discriminate.
      cbn. lia.
    + assert (E : expected_here TokenType.Identifier p = false)
        by (unfold expected_here; rewrite Hc, Ety; reflexivity).
      assert (E' : expected_here TokenType.BraceOpen p = false)
        by (unfold expected_here; rewrite Hc, Ety; reflexivity).
      rewrite E. right. exists tok. unfold after_expect. rewrite E'.
      split; [exact Hc|now left].
    + assert (E : expected_here TokenType.Identifier p = false)
        by (unfold expected_here; rewrite Hc, Ety; reflexivity).
      assert (E' : expected_here TokenType.BraceOpen p = false)
        by (unfold expected_here; rewrite Hc, Ety; reflexivity).
      rewrite E. right. exists tok. unfold after_expect. rewrite E'.
      split; [exact Hc|now right].
  - split.
    + intros E. apply after_expect_unmoved_flag. lia.
    + intros Hf. apply after_expect_flag. congruence.
Qed.

Lemma rule_close_facts q :
  inside q -> block_done q ->
  let r := after_expect TokenType.BraceClose
             "Expected '}' after declaration block." q in
  inside r /\ tokens r = tokens q /\ position q <= position r
  /\ rule_end r
  /\ (position r = position q -> hadError r = true)
  /\ (hadError q = true -> hadError r = true).
Proof.
  intros Hin (tok & Hc & Hty) r.
  split; [now apply inside_after_expect|].
  split; [exact (proj1 (after_expect_same _ _ q))|].
  split; [apply after_expect_moves|].
  split.
  - subst r. unfold after_expect, expected_here. rewrite Hc.
    destruct Hty as [Hty|Hty]; rewrite Hty; cbn [TokenType.eqb andb negb].
    + left. exists tok. split; [now apply previous_advanced|exact Hty].
    + right. unfold at_end.
      change (current (flagged "Expected '}' after declaration block." q))
        with (current q).
      rewrite Hc, Hty. repeat split.
  - split; [apply after_expect_unmoved_flag|apply after_expect_flag].
Qed.

(** A rule uses up its fuel or returns. *)
Lemma parseRule_safe fuel p :
  inside p -> rule_can_start p ->
  parseRule fuel p = OutOfFuel
  \/ exists q,
       parseRule fuel p = Ok (tt, q)
       /\ inside q /\ tokens q = tokens p
       /\ (position p < position q \/ hadError q = true)
       /\ position p <= position q
       /\ rule_end q
       /\ (hadError p = true -> hadError q = true).
Proof.
  intros Hin Hstart. rewrite (parseRule_eq fuel p (proj1 Hin)).
  destruct (before_block_facts p Hin Hstart)
    as (Hin2 & Htok2 & Hpos2 & Hready & Hunmoved2 & Hflag2).
  assert (Hblock :
            parseDeclarationBlock fuel (rule_selector p) (before_block p) = OutOfFuel
            \/ exists q,
                 parseDeclarationBlock fuel (rule_selector p) (before_block p)
                 = Ok (tt, q)
                 /\ inside q /\ tokens q = tokens (before_block p)
                 /\ position (before_block p) <= position q
                 /\ block_done q
                 /\ (hadError (before_block p) = true -> hadError q = true)).
  { destruct Hready as [H1|(tok & Hc & Hty)].
    - now apply block_safe.
    - right. exists (before_block p).
      rewrite (block_ends fuel _ _ tok Hc Hty).
      split; [reflexivity|]. split; [exact Hin2|]. split; [reflexivity|].
      split; [lia|]. split; [now exists tok|auto]. }
  destruct Hblock as [Hout|(q & Hq & Hinq & Htokq & Hposq & Hdone & Hflagq)].
  - left. now apply bind_OutOfFuel.
  - right. rewrite (bind_Ok _ _ _ _ _ Hq), rule_close_eq.
    destruct (rule_close_facts q Hinq Hdone)
      as (Hinr & Htokr & Hposr & Hend & Hunmovedr & Hflagr).
    eexists. split; [reflexivity|].
    split; [exact Hinr|]. split; [congruence|].
    split.
    { destruct (N.eq_dec (position (after_expect TokenType.BraceClose
                                      "Expected '}' after declaration block." q))
                         (position p)) as [E|E]; [|left; lia].
      right. apply Hunmovedr. lia. }
    split; [lia|]. split; [exact Hend|].
    intros Hf. apply Hflagr, Hflagq, Hflag2, Hf.
Qed.

Lemma parseRule_soon_or_never fuel p :
  inside p -> rule_can_start p ->
  N.of_nat (length (tokens p)) - 1 - position p <= N.of_nat fuel ->
  parseRule fuel p = OutOfFuel ->
  forall fuel', parseRule fuel' p = OutOfFuel.
Proof.
  intros Hin Hstart Hfuel Hout fuel'.
  rewrite (parseRule_eq fuel p (proj1 Hin)) in Hout.
  rewrite (parseRule_eq fuel' p (proj1 Hin)).
  destruct (before_block_facts p Hin Hstart)
    as (Hin2 & Htok2 & Hpos2 & Hready & _ & _).
  apply bind_OutOfFuel.
  destruct Hready as [H1|(tok & Hc & Hty)].
  - apply (block_soon_or_never (rule_selector p) fuel); try assumption.
    + rewrite Htok2. lia.
    + destruct (parseDeclarationBlock fuel (rule_selector p) (before_block p))
        as [[u q]| |] eqn:Hb; [| |reflexivity].
      * rewrite (bind_Ok _ _ _ _ _ Hb), rule_close_eq in Hout. discriminate.
      * rewrite (bind_OutOfRange _ _ _ Hb) in Hout. discriminate.
  - rewrite (bind_Ok _ _ _ _ _ (block_ends fuel _ _ tok Hc Hty)) in Hout.
    rewrite rule_close_eq in Hout. discriminate.
Qed.

Lemma parse_no_fuel p :
  at_end p = false -> hadError p = false -> parse 0 p = OutOfFuel.
Proof.
  intros Hend Hflag. rewrite parse_unfold.
  rewrite (bind_Ok _ _ _ _ _ (isAtEnd_eq p)).
  unfold bind, get. now rewrite Hend, Hflag.
Qed.

Lemma parse_at_end fuel p : at_end p = true -> parse fuel p = Ok (tt, p).
Proof.
  intros Hend. rewrite parse_unfold.
  rewrite (bind_Ok _ _ _ _ _ (isAtEnd_eq p)).
  unfold bind, get. now rewrite Hend.
Qed.

(** The whole parse uses up its fuel or returns. *)
Lemma parse_safe fuel :
  forall p,
    inside p -> rule_can_start p ->
    parse fuel p = OutOfFuel
    \/ exists q,
         parse fuel p = Ok (tt, q)
         /\ inside q /\ tokens q = tokens p /\ position p <= position q
         /\ (hadError q = true \/ at_end q = true).
Proof.
  induction fuel as [|fuel IH]; intros p Hin Hstart;
    destruct (at_end p) eqn:Hend;
    try (right; exists p; rewrite (parse_at_end _ p Hend);
         split; [reflexivity|]; split; [exact Hin|];
         split; [reflexivity|]; split; [lia|now right]);
    destruct (hadError p) eqn:Hflag;
    try (right; exists p; rewrite (parse_flagged _ p Hflag);
         split; [reflexivity|]; split; [exact Hin|];
         split; [reflexivity|]; split; [lia|now left]).
  - left. now apply parse_no_fuel.
  - rewrite (parse_turn fuel p Hend Hflag).
    destruct (parseRule_safe fuel p Hin Hstart)
      as [Hout|(q & Hq & Hinq & Htokq & Hprog & Hposq & _ & _)].
    + left. now apply bind_OutOfFuel.
    + rewrite (bind_Ok _ _ _ _ _ Hq).
      destruct (hadError q) eqn:Hflagq.
      * right. exists q. rewrite (parse_flagged fuel q Hflagq).
        split; [reflexivity|]. split; [exact Hinq|]. split; [exact Htokq|].
        split; [lia|now left].
      * assert (Hstartq : rule_can_start q).
        { left. destruct Hprog as [Hlt|Hf]; [lia|discriminate]. }
        destruct (IH q Hinq Hstartq) as [Hout|(r & Hr & Hinr & Htokr & Hposr & Hstop)].
        -- now left.
        -- right. exists r. split; [exact Hr|]. split; [exact Hinr|].
           split; [congruence|]. split; [lia|exact Hstop].
Qed.

(** A parse that has not returned within the number of tokens left never
    returns. *)
Lemma parse_soon_or_never fuel :
  forall p,
    inside p -> rule_can_start p ->
    N.of_nat (length (tokens p)) - position p <= N.of_nat fuel ->
    parse fuel p = OutOfFuel ->
    forall fuel', parse fuel' p = OutOfFuel.
Proof.
  induction fuel as [|fuel IH]; intros p Hin Hstart Hfuel Hout.
  { destruct Hin as (_ & _ & Hpos). lia. }
  assert (Hcond : at_end p = false /\ hadError p = false).
  { rewrite parse_unfold in Hout.
    rewrite (bind_Ok _ _ _ _ _ (isAtEnd_eq p)) in Hout.
    unfold bind at 1, get in Hout.
    destruct (at_end p); [discriminate Hout|].
    destruct (hadError p); [discriminate Hout|]. auto. }
  destruct Hcond as [Hend Hflag].
  rewrite (parse_turn fuel p Hend Hflag) in Hout.
  destruct (parseRule_safe fuel p Hin Hstart)
    as [Hrule|(q & Hq & Hinq & Htokq & Hprog & Hposq & _ & _)].
  - apply (parse_rule_OutOfFuel p Hend Hflag).
    apply (parseRule_soon_or_never fuel p Hin Hstart); [lia|exact Hrule].
  - rewrite (bind_Ok _ _ _ _ _ Hq) in Hout.
    assert (Hflagq : hadError q = false).
    { destruct (hadError q) eqn:E; [|reflexivity].
      rewrite (parse_flagged fuel q E) in Hout. discriminate. }
    assert (Hlt : position p < position q)
      by (destruct Hprog as [Hlt|Hf]; [exact Hlt|congruence]).
    assert (Hnever : forall fuel', parse fuel' q = OutOfFuel).
    { apply IH; try assumption; [left; lia|rewrite Htokq; lia]. }
    intros [|fuel']; [now apply parse_no_fuel|].
    rewrite (parse_turn fuel' p Hend Hflag).
    destruct (parseRule fuel' p) as [[u q']| |] eqn:Hq'.
    + rewrite (bind_Ok _ _ _ _ _ Hq').
      destruct (Nat.le_gt_cases fuel fuel') as [Hle|Hgt].
      * rewrite (parseRule_more_fuel fuel fuel' p Hle) in Hq'
          by (rewrite Hq; discriminate).
        rewrite Hq in Hq'. injection Hq' as _ <-. apply Hnever.
      * rewrite (parseRule_more_fuel fuel' fuel p) in Hq
          by (try lia; rewrite Hq'; discriminate).
        rewrite Hq' in Hq. injection Hq as _ ->. apply Hnever.
    + exfalso.
      destruct (parseRule_safe fuel' p Hin Hstart) as [H|(r & H & _)];
        rewrite Hq' in H; discriminate.
    + now apply bind_OutOfFuel.
Qed.

End Rules.

(** X9: once a token has been consumed, or when the first token is an
    identifier, a brace or [EndOfFile], [parse] never raises: it returns or
    goes on for ever.  When it returns, the token vector is as it was, the
    cursor has not gone back and is still on a token of the vector, and
    either the error flag is set or the cursor is on the [EndOfFile] token:
    a parse that ends with the flag clear has consumed every token. *)
Theorem parse_does_not_raise_once_started (fuel : nat) (p : Parser.t) :
  inside p ->
  rule_can_start p ->
  Parser.parse fuel p = OutOfFuel
  \/ exists q,
       Parser.parse fuel p = Ok (tt, q)
       /\ inside q
       /\ Parser.tokens q = Parser.tokens p
       /\ Parser.position p <= Parser.position q
       /\ (Parser.hadError q = true
           \/ exists tok, current q = Some tok /\ type tok = TokenType.EndOfFile).
Proof.
  intros Hin Hstart.
  destruct (parse_safe fuel p Hin Hstart) as [Hout|(q & Hq & Hinq & Htok & Hpos & Hstop)].
  - now left.
  - right. exists q. split; [exact Hq|]. split; [exact Hinq|].
    split; [exact Htok|]. split; [exact Hpos|].
    destruct Hstop as [Hf|Hend]; [now left|right].
    destruct (inside_current q Hinq) as [tok Hc]. exists tok. split; [exact Hc|].
    unfold at_end in Hend. rewrite Hc in Hend.
    destruct (type tok); try discriminate Hend. reflexivity.
Qed.

(** X9, on a text with two faulty declarations. *)
Lemma parse_does_not_raise_once_started_witness :
  let p := parser_of "a { x 1; : 2; } b { y: 3; }" in
  inside p
  /\ rule_can_start p
  /\ exists q, Parser.parse 9 p = Ok (tt, q) /\ Parser.hadError q = true.
Proof.
  intros p.
  assert (H1 : inside p).
  { split; [vm_compute; reflexivity|]. split; vm_compute; reflexivity. }
  assert (H2 : rule_can_start p).
  { right. exists (mkToken TokenType.Identifier "a"). split; vm_compute; reflexivity. }
  split; [exact H1|]. split; [exact H2|].
  destruct (parse_does_not_raise_once_started 9 p H1 H2)
    as [Hout|(q & Hq & _ & _ & _ & Hstop)].
  - exfalso. vm_compute in Hout. discriminate Hout.
  - exists q. split; [exact Hq|].
    destruct Hstop as [Hf|(tok & Hc & Hty)]; [exact Hf|].
    exfalso. vm_compute in Hq. injection Hq as <-.
    vm_compute in Hc. injection Hc as <-. discriminate Hty.
Defined.

Lemma parse_bad_first_token (p : Parser.t) (tok : Token) :
  inside p ->
  Parser.position p = 0 ->
  Parser.hadError p = false ->
  current p = Some tok ->
  starts_rule (type tok) = false ->
  forall extra, Parser.parse (2 + extra) p = OutOfRange.
Proof.
  intros Hin Hpos Hflag Hc Hbad extra.
  assert (H2 : Parser.parse 2 p = OutOfRange).
  { assert (Hend : at_end p = false).
    { unfold at_end. rewrite Hc. destruct (type tok); try reflexivity.
      discriminate Hbad. }
    rewrite (parse_turn 1 p Hend Hflag).
    apply bind_OutOfRange.
    rewrite (parseRule_eq 1 p (proj1 Hin)).
    assert (E1 : expected_here TokenType.Identifier p = false)
      by (unfold expected_here; rewrite Hc; destruct (type tok);
          try reflexivity; discriminate Hbad).
    assert (E2 : expected_here TokenType.BraceOpen p = false)
      by (unfold expected_here; rewrite Hc; destruct (type tok);
          try reflexivity; discriminate Hbad).
    unfold before_block, rule_selector, after_expect. rewrite E1, E2.
    apply bind_OutOfRange.
    rewrite (block_turn 0 "" (flagged "Expected '{' after selector." p) tok Hc);
      [| destruct (type tok); try discriminate; discriminate Hbad
       | destruct (type tok); try discriminate; discriminate Hbad].
    apply bind_OutOfRange.
    rewrite parseDeclaration_eq;
      [|exact (proj1 Hin)|destruct Hin as (_ & _ & H); cbn; lia].
    unfold after_property, after_expect.
    change (expected_here TokenType.Identifier
              (flagged "Expected '{' after selector." p))
      with (expected_here TokenType.Identifier p).
    rewrite E1. unfold previous. cbn [flagged Parser.position].
    now rewrite Hpos. }
  rewrite (parse_more_fuel 2 (2 + extra) p); [exact H2|lia|].
  rewrite H2. discriminate.
Qed.

(** X10: on a parser just built (no token consumed, no error recorded),
    [parse] raises [std::out_of_range] exactly when the first token is none
    of an identifier, an opening brace, a closing brace and [EndOfFile]:
    that is, when the text starts with a number, a string, a colon, a
    semicolon, a colour or an unknown character. *)
Theorem parse_raises_exactly_on_bad_first_token (p : Parser.t) (tok : Token) :
  inside p ->
  Parser.position p = 0 ->
  Parser.hadError p = false ->
  current p = Some tok ->
  (starts_rule (type tok) = false ->
   forall extra, Parser.parse (2 + extra) p = OutOfRange)
  /\ (starts_rule (type tok) = true ->
      forall fuel, Parser.parse fuel p <> OutOfRange).
Proof.
  intros Hin Hpos Hflag Hc. split.
  - intros Hbad extra.
    now apply (parse_bad_first_token p tok).
  - intros Hgood fuel.
    assert (Hstart : rule_can_start p) by (right; now exists tok).
    destruct (parse_safe fuel p Hin Hstart) as [-> | (q & -> & _)]; discriminate.
Qed.

(** X10, on a text that starts with a semicolon. *)
Lemma parse_raises_exactly_on_bad_first_token_witness :
  let p := parser_of "; a { x: 1; }" in
  inside p
  /\ Parser.position p = 0
  /\ Parser.hadError p = false
  /\ current p = Some (mkToken TokenType.Semicolon ";")
  /\ Parser.parse 2 p = OutOfRange.
Proof.
  intros p.
  assert (H1 : inside p).
  { split; [vm_compute; reflexivity|]. split; vm_compute; reflexivity. }
  assert (H2 : Parser.position p = 0) by (vm_compute; reflexivity).
  assert (H3 : Parser.hadError p = false) by (vm_compute; reflexivity).
  assert (H4 : current p = Some (mkToken TokenType.Semicolon ";"))
    by (vm_compute; reflexivity).
  split; [exact H1|]. split; [exact H2|]. split; [exact H3|]. split; [exact H4|].
  exact (proj1 (parse_raises_exactly_on_bad_first_token p _ H1 H2 H3 H4)
           eq_refl 0%nat).
Defined.

(** X11: [parse] returns quickly or never.  From a state where a rule can
    start, if the call has not returned after as many loop turns as the
    vector has tokens, then no number of turns is enough. *)
Theorem parse_returns_soon_or_never (p : Parser.t) :
  inside p ->
  rule_can_start p ->
  Parser.parse (length (Parser.tokens p)) p = OutOfFuel ->
  forall fuel, Parser.parse fuel p = OutOfFuel.
Proof.
  intros Hin Hstart Hout.
  apply (parse_soon_or_never (length (Parser.tokens p)) p Hin Hstart); [lia|exact Hout].
Qed.

(** X11, on a text whose second rule holds a nested opening brace. *)
Lemma parse_returns_soon_or_never_witness :
  let p := parser_of "a { x: 1; } b { c { y: 2; } }" in
  inside p
  /\ rule_can_start p
  /\ Parser.parse (length (Parser.tokens p)) p = OutOfFuel
  /\ Parser.parse 1000 p = OutOfFuel.
Proof.
  intros p.
  assert (H1 : inside p).
  { split; [vm_compute; reflexivity|]. split; vm_compute; reflexivity. }
  assert (H2 : rule_can_start p).
  { right. exists (mkToken TokenType.Identifier "a"). split; vm_compute; reflexivity. }
  assert (H3 : Parser.parse (length (Parser.tokens p)) p = OutOfFuel)
    by (vm_compute; reflexivity).
  split; [exact H1|]. split; [exact H2|]. split; [exact H3|].
  exact (parse_returns_soon_or_never p H1 H2 H3 1000%nat).
Defined.

(** X12: inside a declaration block, an opening brace or an [Unknown]
    token stops everything: once a token has been consumed, whenever the
    cursor of the block loop is on such a token the loop never ends, and
    each turn leaves the cursor and the token vector as they were. *)
Theorem block_never_ends_on_unmatched_token
    (selector : string) (p : Parser.t) (tok : Token) :
  inside p ->
  1 <= Parser.position p ->
  current p = Some tok ->
  type tok = TokenType.BraceOpen \/ type tok = TokenType.Unknown ->
  (forall fuel, Parser.parseDeclarationBlock fuel selector p = OutOfFuel)
  /\ exists q,
       Parser.parseDeclaration selector p = Ok (tt, q)
       /\ Parser.position q = Parser.position p
       /\ Parser.tokens q = Parser.tokens p
       /\ Parser.hadError q = true.
Proof.
  intros Hin H1 Hc Hu. split.
  - intros fuel.
    apply (parseDeclarationBlock_unmatched selector fuel p tok); try assumption.
    apply Hin.
  - destruct (parseDeclaration_inside selector p Hin H1) as [prev Hq].
    exists (declared selector prev p). split; [exact Hq|].
    destruct (declared_facts selector prev p Hin) as (_ & Htok & Hpos & _).
    assert (E : Parser.position (after_semicolon p) = Parser.position p).
    { destruct (parseDeclaration_unmatched selector p tok (proj1 Hin) H1 Hc Hu)
        as (q & Hq' & _ & Hpos').
      rewrite Hq in Hq'. injection Hq' as <-. rewrite <- Hpos. exact Hpos'. }
    split; [rewrite Hpos; exact E|]. split; [exact Htok|].
    unfold declared. cbn [Parser.hadError Parser.set_stylesheet].
    exact (proj2 (proj2 (proj2 (proj2 (after_semicolon_unmoved p E))))).
Qed.

(** X12, on the nested brace of [b { c { y: 2; } }]. *)
Lemma block_never_ends_on_unmatched_token_witness :
  let p := Parser.set_position 3 (parser_of "b { c { y: 2; } }") in
  inside p
  /\ 1 <= Parser.position p
  /\ current p = Some (mkToken TokenType.BraceOpen "{")
  /\ forall fuel, Parser.parseDeclarationBlock fuel "b" p = OutOfFuel.
Proof.
  intros p.
  assert (H1 : inside p).
  { split; [vm_compute; reflexivity|]. split; vm_compute; reflexivity. }
  assert (H2 : 1 <= Parser.position p) by (vm_compute; discriminate).
  assert (H3 : current p = Some (mkToken TokenType.BraceOpen "{"))
    by (vm_compute; reflexivity).
  split; [exact H1|]. split; [exact H2|]. split; [exact H3|].
  exact (proj1 (block_never_ends_on_unmatched_token "b" p _ H1 H2 H3
                  (or_introl eq_refl))).
Defined.

(** X13: a rule that returns has ended in one of two ways: just after a
    closing brace, which it consumed, or on the [EndOfFile] token with the
    error flag set and the message "Expected '}' after declaration block.".
    In both cases the token vector is as it was and the cursor has not gone
    back; and when the cursor has not moved at all, the error flag is
    set. *)
Theorem parseRule_ends_on_brace_or_eof (fuel : nat) (p q : Parser.t) :
  inside p ->
  rule_can_start p ->
  Parser.parseRule fuel p = Ok (tt, q) ->
  rule_end q
  /\ Parser.tokens q = Parser.tokens p
  /\ Parser.position p <= Parser.position q
  /\ (Parser.position q = Parser.position p -> Parser.hadError q = true).
Proof.
  intros Hin Hstart Hq.
  destruct (parseRule_safe fuel p Hin Hstart)
    as [Hout|(q' & Hq' & _ & Htok & Hprog & Hpos & Hend & _)].
  - rewrite Hq in Hout. discriminate.
  - rewrite Hq in Hq'. injection Hq' as <-.
    split; [exact Hend|]. split; [exact Htok|]. split; [exact Hpos|].
    intros E. destruct Hprog as [Hlt|Hf]; [lia|exact Hf].
Qed.

(** X13, on a rule cut before its closing brace. *)
Lemma parseRule_ends_on_brace_or_eof_witness :
  let p := parser_of "a { x: 1;" in
  let q := flagged "Expected '}' after declaration block."
             (Parser.mk (Parser.lexer p) (Parser.tokens p)
                {[ "a" := {[ "x" := "1" ]} ]} 6 false (mkParseError "" "")) in
  inside p
  /\ rule_can_start p
  /\ Parser.parseRule 1 p = Ok (tt, q)
  /\ rule_end q.
Proof.
  intros p q.
  assert (H1 : inside p).
  { split; [vm_compute; reflexivity|]. split; vm_compute; reflexivity. }
  assert (H2 : rule_can_start p).
  { right. exists (mkToken TokenType.Identifier "a"). split; vm_compute; reflexivity. }
  assert (H3 : Parser.parseRule 1 p = Ok (tt, q)) by (vm_compute; reflexivity).
  split; [exact H1|]. split; [exact H2|]. split; [exact H3|].
  exact (proj1 (parseRule_ends_on_brace_or_eof 1 p q H1 H2 H3)).
Defined.

(** ** Well-formed stylesheets *)

Section WellFormed.
Import Parser.

Lemma block_tokens_length ds : length (block_tokens ds) = (4 * length ds)%nat.
Proof.
  induction ds as [|d ds IH]; [reflexivity|].
  cbn [block_tokens]. rewrite length_app, IH. cbn [declaration_tokens length]. lia.
Qed.

Lemma parseRule_well_formed fuel p pre r post :
  fits_size_t p ->
  tokens p = (pre ++ rule_tokens r ++ post)%list ->
  position p = N.of_nat (length pre) ->
  well_formed_rule r ->
  (length r.2 <= fuel)%nat ->
  parseRule fuel p =
  Ok (tt, set_stylesheet (store_all r.1 r.2 (stylesheet p))
            (set_position (position p + 3 + 4 * N.of_nat (length r.2)) p)).
Proof.
  intros Hfit Htok Hpos Hwf Hfuel.
  assert (H0 : token_at p 0 = Some (mkToken TokenType.Identifier r.1))
    by (apply (token_at_middle p pre (rule_tokens r) post 0 _ Htok Hpos); reflexivity).
  assert (H1 : token_at p 1 = Some (mkToken TokenType.BraceOpen "{"))
    by (apply (token_at_middle p pre (rule_tokens r) post 1 _ Htok Hpos); reflexivity).
  rewrite (parseRule_eq fuel p Hfit).
  assert (E1 : expected_here TokenType.Identifier p = true).
  { apply (expected_here_true _ p (mkToken TokenType.Identifier r.1));
      [now rewrite current_token_at|reflexivity|discriminate]. }
  assert (Esel : rule_selector p = r.1).
  { unfold rule_selector, current_text. rewrite E1, current_token_at, H0. reflexivity. }
  assert (Ebb : before_block p = advanced (advanced p)).
  { unfold before_block, after_expect. rewrite E1.
    rewrite (expected_here_true _ (advanced p) (mkToken TokenType.BraceOpen "{"));
      [reflexivity| |reflexivity|discriminate].
    now rewrite current_token_at, current_advanced. }
  rewrite Esel, Ebb.
  assert (Htok2 : tokens (advanced (advanced p)) =
            ((pre ++ [mkToken TokenType.Identifier r.1;
                      mkToken TokenType.BraceOpen "{"])
             ++ block_tokens r.2 ++ mkToken TokenType.BraceClose "}" :: post)%list).
  { cbn [tokens advanced set_position]. rewrite Htok. unfold rule_tokens.
    rewrite <- !app_assoc. cbn [app]. rewrite <- !app_assoc. reflexivity. }
  assert (Hpos2 : position (advanced (advanced p)) =
            N.of_nat (length (pre ++ [mkToken TokenType.Identifier r.1;
                                      mkToken TokenType.BraceOpen "{"])%list)).
  { cbn [position advanced set_position]. rewrite Hpos, length_app.
    cbn [length]. lia. }
  rewrite (bind_Ok _ _ _ _ _
             (parseDeclarationBlock_well_formed r.1 r.2 Hwf fuel
                (advanced (advanced p)) _ (mkToken TokenType.BraceClose "}") post
                Hfit Htok2 Hpos2 (or_introl eq_refl) Hfuel)).
  rewrite rule_close_eq.
  set (q := set_stylesheet _ _).
  assert (Ec : expected_here TokenType.BraceClose q = true).
  { apply (expected_here_true _ q (mkToken TokenType.BraceClose "}"));
      [|reflexivity|discriminate].
    unfold current, q. cbn [tokens position set_stylesheet set_position advanced].
    assert (Htok3 : tokens p =
              ((pre ++ [mkToken TokenType.Identifier r.1;
                        mkToken TokenType.BraceOpen "{"] ++ block_tokens r.2)
               ++ mkToken TokenType.BraceClose "}" :: post)%list).
    { rewrite Htok. unfold rule_tokens.
      rewrite <- !app_assoc. cbn [app]. rewrite <- !app_assoc. reflexivity. }
    rewrite Htok3. apply list_lookup_middle.
    rewrite Hpos, !length_app, block_tokens_length. cbn [length]. lia. }
  unfold after_expect. rewrite Ec. subst q.
  unfold advanced, set_stylesheet, set_position. cbn.
  do 3 f_equal. lia.
Qed.

Lemma sheet_tokens_length_cons r rules :
  length (sheet_tokens (r :: rules)) =
  (3 + 4 * length r.2 + length (sheet_tokens rules))%nat.
Proof.
  cbn [sheet_tokens]. rewrite length_app. unfold rule_tokens.
  cbn [length]. rewrite length_app. cbn [length].
  rewrite block_tokens_length. lia.
Qed.

Lemma parse_well_formed rules :
  Forall well_formed_rule rules ->
  forall fuel p pre eof,
    fits_size_t p ->
    tokens p = (pre ++ sheet_tokens rules ++ [eof])%list ->
    type eof = TokenType.EndOfFile ->
    position p = N.of_nat (length pre) ->
    hadError p = false ->
    (length (sheet_tokens rules) <= fuel)%nat ->
    parse fuel p =
    Ok (tt, set_stylesheet (store_rules rules (stylesheet p))
              (set_position (position p + N.of_nat (length (sheet_tokens rules))) p)).
Proof.
  induction 1 as [|r rules Hr Hrules IH];
    intros fuel p pre eof Hfit Htok Heof Hpos Hflag Hfuel.
  - cbn [sheet_tokens app] in Htok.
    assert (Hc : current p = Some eof).
    { rewrite current_token_at.
      now apply (token_at_middle p pre [eof] [] 0 eof);
        [rewrite app_nil_r|exact Hpos|reflexivity]. }
    rewrite parse_at_end by (unfold at_end; now rewrite Hc, Heof).
    cbn [store_rules sheet_tokens length].
    replace (position p + N.of_nat 0) with (position p) by lia.
    destruct p. reflexivity.
  - rewrite sheet_tokens_length_cons in Hfuel |- *.
    destruct fuel as [|fuel]; [lia|].
    cbn [sheet_tokens] in Htok.
    assert (Htok' : tokens p =
              (pre ++ rule_tokens r ++ (sheet_tokens rules ++ [eof]))%list)
      by now rewrite Htok, <- !app_assoc.
    assert (Hend : at_end p = false).
    { unfold at_end. rewrite current_token_at.
      rewrite (token_at_middle p pre (rule_tokens r) _ 0
                 (mkToken TokenType.Identifier r.1) Htok' Hpos eq_refl).
      reflexivity. }
    rewrite (parse_turn fuel p Hend Hflag).
    rewrite (bind_Ok _ _ _ _ _
               (parseRule_well_formed fuel p pre r _ Hfit Htok' Hpos Hr ltac:(lia))).
    rewrite (IH fuel _ (pre ++ rule_tokens r)%list eof).
    + cbn [store_rules stylesheet position set_stylesheet set_position].
      unfold set_stylesheet, set_position. cbn. do 3 f_equal. lia.
    + exact Hfit.
    + cbn [tokens set_stylesheet set_position]. now rewrite Htok', <- !app_assoc.
    + exact Heof.
    + cbn [position set_stylesheet set_position]. rewrite Hpos, length_app.
      unfold rule_tokens. cbn [length]. rewrite length_app. cbn [length].
      rewrite block_tokens_length. lia.
    + exact Hflag.
    + lia.
Qed.

Lemma lookup2_store_all_ne selector selector' property ds (ss : Stylesheet) :
  selector <> selector' ->
  lookup2 (store_all selector ds ss) selector' property = lookup2 ss selector' property.
Proof.
  intros Hne. unfold lookup2. now rewrite (store_all_lookup_ne selector selector').
Qed.

Lemma lookup2_store_rules selector property rules (ss : Stylesheet) :
  lookup2 (store_rules rules ss) selector property =
  match last_declared selector property rules with
  | Some v => Some v
  | None => lookup2 ss selector property
  end.
Proof.
  revert ss. induction rules as [|r rules IH]; intros ss; cbn.
  - reflexivity.
  - rewrite IH. destruct (last_declared selector property rules); [reflexivity|].
    destruct (String.eqb_spec r.1 selector) as [->|Hne].
    + apply lookup2_store_all.
    + now apply lookup2_store_all_ne.
Qed.

Lemma dom_store_rules rules (ss : Stylesheet) :
  dom (store_rules rules ss) = declaring_selectors rules ∪ dom ss.
Proof.
  revert ss. induction rules as [|r rules IH]; intros ss; cbn.
  - now rewrite (left_id_L ∅ (∪)).
  - rewrite IH, dom_store_all. destruct r.2.
    + reflexivity.
    + rewrite (assoc_L (∪) (declaring_selectors rules)).
      now rewrite (comm_L (∪) (declaring_selectors rules)).
Qed.

End WellFormed.

(** X14: on a well-formed token vector (rules of the form selector,
    opening brace, declarations [property : value ;], closing brace, then
    [EndOfFile]) a parser just built returns with the error flag clear and
    no error recorded, the cursor on the [EndOfFile] token.  Each property
    of each selector then holds the value of its last declaration, over all
    the rules with that selector name; nothing else is in the stylesheet,
    and a rule without declarations adds no entry for its selector. *)
Theorem parse_well_formed_stylesheet
    (rules : list (string * list (string * Token))) (fuel : nat) (p : Parser.t)
    (eof : Token) :
  Forall well_formed_rule rules ->
  fits_size_t p ->
  Parser.tokens p = (sheet_tokens rules ++ [eof])%list ->
  type eof = TokenType.EndOfFile ->
  Parser.position p = 0 ->
  Parser.hadError p = false ->
  Parser.stylesheet p = ∅ ->
  (length (Parser.tokens p) <= fuel)%nat ->
  exists q,
    Parser.parse fuel p = Ok (tt, q)
    /\ Parser.hadError q = false
    /\ Parser.lastError q = Parser.lastError p
    /\ current q = Some eof
    /\ (forall selector property,
          lookup2 (Parser.stylesheet q) selector property =
          last_declared selector property rules)
    /\ dom (Parser.stylesheet q) = declaring_selectors rules.
Proof.
  intros Hwf Hfit Htok Heof Hpos Hflag Hempty Hfuel.
  assert (Hlen : (length (sheet_tokens rules) <= fuel)%nat).
  { rewrite Htok, length_app in Hfuel. lia. }
  eexists. split.
  - exact (parse_well_formed rules Hwf fuel p [] eof Hfit Htok Heof Hpos Hflag Hlen).
  - cbn [Parser.hadError Parser.lastError Parser.stylesheet
         Parser.set_stylesheet Parser.set_position].
    split; [exact Hflag|]. split; [reflexivity|]. split.
    + unfold current.
      cbn [Parser.tokens Parser.position Parser.set_stylesheet Parser.set_position].
      rewrite Htok, Hpos.
      replace (N.to_nat (0 + N.of_nat (length (sheet_tokens rules))))
        with (length (sheet_tokens rules) + 0)%nat by lia.
      now rewrite lookup_app_r, Nat.add_0_r, Nat.sub_diag by lia.
    + split.
      * intros selector property. rewrite lookup2_store_rules, Hempty.
        destruct (last_declared selector property rules); reflexivity.
      * rewrite dom_store_rules, Hempty, dom_empty_L. apply (right_id_L ∅ (∪)).
Qed.

(** X14, on two rules for [a] and an empty rule for [b]. *)
Lemma parse_well_formed_stylesheet_witness :
  let css := "a { x: 1; y: red; } b { } a { x: #08090E; }" in
  let p := parser_of css in
  let rules :=
    [("a", [("x", mkToken TokenType.Number "1");
            ("y", mkToken TokenType.Identifier "red")]);
     ("b", []);
     ("a", [("x", mkToken TokenType.HexColor "08090E")])] in
  let eof := mkToken TokenType.EndOfFile "" in
  Forall well_formed_rule rules
  /\ fits_size_t p
  /\ Parser.tokens p = (sheet_tokens rules ++ [eof])%list
  /\ Parser.position p = 0
  /\ Parser.hadError p = false
  /\ Parser.stylesheet p = ∅
  /\ exists q,
       Parser.parse 30 p = Ok (tt, q)
       /\ Parser.hadError q = false
       /\ lookup2 (Parser.stylesheet q) "a" "x" = Some "08090E"
       /\ lookup2 (Parser.stylesheet q) "a" "y" = Some "red"
       /\ dom (Parser.stylesheet q) = {[ "a" ]}.
Proof.
  intros css p rules eof.
  assert (H1 : Forall well_formed_rule rules) by (repeat constructor).
  assert (H2 : fits_size_t p) by (vm_compute; reflexivity).
  assert (H3 : Parser.tokens p = (sheet_tokens rules ++ [eof])%list)
    by (vm_compute; reflexivity).
  assert (H4 : Parser.position p = 0) by (vm_compute; reflexivity).
  assert (H5 : Parser.hadError p = false) by (vm_compute; reflexivity).
  assert (H6 : Parser.stylesheet p = ∅) by (vm_compute; reflexivity).
  assert (H7 : (length (Parser.tokens p) <= 30)%nat) by (vm_compute; lia).
  split; [exact H1|]. split; [exact H2|]. split; [exact H3|]. split; [exact H4|].
  split; [exact H5|]. split; [exact H6|].
  destruct (parse_well_formed_stylesheet rules 30 p eof H1 H2 H3 eq_refl H4 H5 H6 H7)
    as (q & Hq & Hflag & _ & _ & Hlook & Hdom).
  exists q. split; [exact Hq|]. split; [exact Hflag|].
  rewrite !Hlook, Hdom. repeat split; vm_compute; reflexivity.
Defined.

(** X15: what a parse that returns has left alone.  The source text and
    the token vector are as they were, and an error flag that was set is
    still set.  As for errors: either the flag and the last error are
    exactly as before the call, or the flag is set and the last error
    carries the whole source text as its line. *)
Theorem parse_records_whole_source (fuel : nat) (p q : Parser.t) :
  Parser.parse fuel p = Ok (tt, q) ->
  Parser.lexer q = Parser.lexer p
  /\ Parser.tokens q = Parser.tokens p
  /\ (Parser.hadError p = true -> Parser.hadError q = true)
  /\ ((Parser.hadError q = Parser.hadError p
       /\ Parser.lastError q = Parser.lastError p)
      \/ (Parser.hadError q = true
          /\ errLine (Parser.lastError q) = Lexer.input (Parser.lexer p))).
Proof.
  intros Hq.
  pose (R := fun p q : Parser.t =>
               Parser.lexer q = Parser.lexer p
               /\ Parser.tokens q = Parser.tokens p
               /\ ((Parser.hadError q = Parser.hadError p
                    /\ Parser.lastError q = Parser.lastError p)
                   \/ (Parser.hadError q = true
                       /\ errLine (Parser.lastError q)
                          = Lexer.input (Parser.lexer p)))).
  assert (Hrefl : forall p0, R p0 p0) by (intros p0; unfold R; auto).
  assert (Htrans : forall p0 q0 r0, R p0 q0 -> R q0 r0 -> R p0 r0).
  { intros p0 q0 r0 (Hl1 & Ht1 & He1) (Hl2 & Ht2 & He2).
    split; [congruence|]. split; [congruence|].
    destruct He2 as [[Hf2 Hm2]|[Hf2 Hm2]].
    - destruct He1 as [[Hf1 Hm1]|[Hf1 Hm1]].
      + left. split; congruence.
      + right. split; congruence.
    - right. split; [exact Hf2|congruence]. }
  assert (Hmove : forall n p0, R p0 (Parser.set_position n p0))
    by (intros n p0; unfold R; cbn; auto).
  assert (Hwrite : forall ss p0, R p0 (Parser.set_stylesheet ss p0))
    by (intros ss p0; unfold R; cbn; auto).
  assert (Herr : forall msg p0, R p0 (flagged msg p0))
    by (intros msg p0; unfold R; cbn; auto).
  pose proof (preserves_parse R Hrefl Htrans Hmove Hwrite Herr fuel p tt q Hq) as H.
  destruct H as (Hl & Ht & He).
  split; [exact Hl|]. split; [exact Ht|]. split; [|exact He].
  intros Hf. destruct He as [[Hf' _]|[Hf' _]]; congruence.
Qed.

(** X15, on a rule whose declaration lacks its semicolon. *)
Lemma parse_records_whole_source_witness :
  let css := "a { x: 1 }" in
  let p := parser_of css in
  exists q,
    Parser.parse 3 p = Ok (tt, q)
    /\ Parser.tokens q = Parser.tokens p
    /\ Parser.hadError q = true
    /\ errLine (Parser.lastError q) = css.
Proof.
  intros css p.
  assert (Hq : {q | Parser.parse 3 p = Ok (tt, q)}).
  { eexists. vm_compute. reflexivity. }
  destruct Hq as [q Hq]. exists q.
  destruct (parse_records_whole_source 3 p q Hq) as (_ & Ht & _ & He).
  split; [exact Hq|]. split; [exact Ht|].
  destruct He as [[Hf _]|[Hf Hl]].
  - exfalso. vm_compute in Hq. injection Hq as <-. discriminate Hf.
  - split; [exact Hf|]. rewrite Hl. vm_compute. reflexivity.
Defined.

(** ** Writing to the stylesheet *)

Section Writes.

Lemma store_twice selector property v1 v2 (ss : Stylesheet) :
  store selector property v2 (store selector property v1 ss) =
  store selector property v2 ss.
Proof.
  unfold store. rewrite lookup_insert_eq. simpl.
  now rewrite insert_insert_eq, insert_insert_eq.
Qed.

Lemma store_commute s1 p1 v1 s2 p2 v2 (ss : Stylesheet) :
  s1 <> s2 \/ p1 <> p2 ->
  store s1 p1 v1 (store s2 p2 v2 ss) = store s2 p2 v2 (store s1 p1 v1 ss).
Proof.
  intros Hne. unfold store.
  destruct (decide (s1 = s2)) as [->|Hs].
  - destruct Hne as [Hne|Hne]; [contradiction|].
    rewrite !lookup_insert_eq. simpl.
    rewrite !insert_insert_eq. f_equal. now apply insert_insert_ne.
  - rewrite (lookup_insert_ne _ s2 s1) by congruence.
    rewrite (lookup_insert_ne _ s1 s2) by congruence.
    now apply insert_insert_ne.
Qed.

End Writes.

(** X16: reading after [stylesheet[selector][property] = value].  The
    write is seen at that selector and property, a write creates the table
    of a selector that had none, and every other pair of selector and
    property reads as before; the set of selectors only gains the one
    written. *)
Theorem store_then_lookup
    (selector property val selector' property' : string) (ss : Stylesheet) :
  lookup2 (store selector property val ss) selector' property' =
  (if String.eqb selector' selector && String.eqb property' property
   then Some val
   else lookup2 ss selector' property')
  /\ dom (store selector property val ss) = {[ selector ]} ∪ dom ss.
Proof.
  split; [|apply dom_store].
  destruct (String.eqb_spec selector' selector) as [->|Hs]; cbn [andb].
  - destruct (String.eqb_spec property' property) as [->|Hp].
    + apply lookup2_store.
    + apply lookup2_store_other_property. congruence.
  - unfold lookup2. rewrite store_lookup_ne by congruence. reflexivity.
Qed.

(** X17: the order of two writes matters only when they are to the same
    property of the same selector, where the last one wins: a second write
    to the same place replaces the first one, and two writes to different
    places give the same stylesheet in either order. *)
Theorem store_order (s1 p1 v1 s2 p2 v2 : string) (ss : Stylesheet) :
  store s1 p1 v2 (store s1 p1 v1 ss) = store s1 p1 v2 ss
  /\ (String.eqb s1 s2 && String.eqb p1 p2 = false ->
      store s1 p1 v1 (store s2 p2 v2 ss) = store s2 p2 v2 (store s1 p1 v1 ss)).
Proof.
  split; [apply store_twice|].
  intros Hne. apply store_commute.
  apply andb_false_iff in Hne as [Hne|Hne]; [left|right];
    now apply String.eqb_neq.
Qed.

(** X17, on two properties of one selector. *)
Lemma store_order_witness :
  String.eqb "a" "a" && String.eqb "x" "y" = false
  /\ store "a" "x" "1" (store "a" "y" "2" ∅) = store "a" "y" "2" (store "a" "x" "1" ∅).
Proof.
  assert (H : String.eqb "a" "a" && String.eqb "x" "y" = false) by reflexivity.
  split; [exact H|].
  exact (proj2 (store_order "a" "x" "1" "a" "y" "2" ∅) H).
Defined.

(** ** Building a parser *)

(** X18: building a parser never fails.  For every source text the
    constructor returns a parser that holds the text, a token vector ending
    with its only [EndOfFile] token, the cursor on the first token, an
    empty stylesheet, the error flag clear and an empty last error. *)
Theorem new_parser_is_ready (css : string) :
  ssize css + 1 < 2 ^ 64 ->
  exists p,
    Parser.new css = Ok p
    /\ inside p
    /\ Parser.position p = 0
    /\ Parser.stylesheet p = ∅
    /\ Parser.hadError p = false
    /\ Parser.lastError p = mkParseError "" ""
    /\ Lexer.input (Parser.lexer p) = css
    /\ exists body,
         Parser.tokens p = (body ++ [mkToken TokenType.EndOfFile ""])%list
         /\ Forall (fun tok => type tok <> TokenType.EndOfFile) body.
Proof.
  intros Hsize.
  destruct (tokenize_spec css ltac:(lia)) as (body & Htok & Hbody & Hlen).
  unfold Parser.new. rewrite Htok. eexists. split; [reflexivity|].
  cbn [Parser.position Parser.stylesheet Parser.hadError Parser.lastError
       Parser.lexer Parser.tokens Lexer.input].
  split.
  - unfold inside, fits_size_t, eof_terminated.
    cbn [Parser.position Parser.tokens].
    rewrite last_snoc, length_app. cbn [length fmap option_fmap option_map type].
    repeat split; lia.
  - repeat split. exists body. split; [reflexivity|exact Hbody].
Qed.

(** X18, on a text that is not a stylesheet at all. *)
Lemma new_parser_is_ready_witness :
  let css := "}} ;; @" in
  ssize css + 1 < 2 ^ 64
  /\ exists p, Parser.new css = Ok p /\ inside p /\ Parser.position p = 0.
Proof.
  intros css.
  assert (H1 : ssize css + 1 < 2 ^ 64) by (vm_compute; reflexivity).
  split; [exact H1|].
  destruct (new_parser_is_ready css H1) as (p & Hp & Hin & Hpos & _).
  exists p. split; [exact Hp|]. split; [exact Hin|exact Hpos].
Defined.

(** ** From the text to the outcome *)

Lemma new_inside css :
  ssize css + 1 < 2 ^ 64 ->
  exists p,
    Parser.new css = Ok p /\ inside p
    /\ Parser.position p = 0 /\ Parser.hadError p = false.
Proof.
  intros Hsize.
  destruct (tokenize_spec css ltac:(lia)) as (body & Htok & Hbody & Hlen).
  unfold Parser.new. rewrite Htok. eexists. split; [reflexivity|].
  split; [|split; reflexivity].
  unfold inside, fits_size_t, eof_terminated.
  cbn [Parser.position Parser.tokens].
  rewrite last_snoc, length_app. cbn [length fmap option_fmap option_map type].
  repeat split; lia.
Qed.

(** X19: the outcome of [Parser parser(css); parser.parse();] for every
    source text, read off the first token of the text.  When the first
    token is a number, a string, a colon, a semicolon, a colour or an
    unknown character, the call raises [std::out_of_range].  Otherwise it
    never raises; it returns or runs for ever, and if it has not returned
    after as many loop turns as there are tokens it never returns. *)
Theorem run_outcome_by_first_token (css : string) :
  ssize css + 1 < 2 ^ 64 ->
  exists p tok,
    Parser.new css = Ok p
    /\ current p = Some tok
    /\ (starts_rule (type tok) = false ->
        forall extra, run (2 + extra) css = OutOfRange)
    /\ (starts_rule (type tok) = true ->
        (forall fuel, run fuel css <> OutOfRange)
        /\ (run (length (Parser.tokens p)) css = OutOfFuel ->
            forall fuel, run fuel css = OutOfFuel)).
Proof.
  intros Hsize.
  destruct (new_inside css Hsize) as (p & Hnew & Hin & Hpos & Hflag).
  destruct (inside_current p Hin) as [tok Hc].
  exists p, tok. split; [exact Hnew|]. split; [exact Hc|].
  unfold run. rewrite Hnew. split.
  - intros Hbad extra.
    now rewrite (parse_bad_first_token p tok Hin Hpos Hflag Hc Hbad extra).
  - intros Hgood.
    assert (Hstart : rule_can_start p) by (right; now exists tok).
    split.
    + intros fuel.
      destruct (parse_safe fuel p Hin Hstart) as [-> | (q & -> & _)]; discriminate.
    + intros Hout fuel.
      assert (Hp : Parser.parse (length (Parser.tokens p)) p = OutOfFuel).
      { destruct (Parser.parse (length (Parser.tokens p)) p) as [[u q]| |];
          [discriminate Hout|discriminate Hout|reflexivity]. }
      now rewrite (parse_soon_or_never (length (Parser.tokens p)) p Hin Hstart
                     ltac:(lia) Hp fuel).
Qed.

(** X19, on a text that starts with a number. *)
Lemma run_outcome_by_first_token_witness :
  let css := "14 { x: 1; }" in
  ssize css + 1 < 2 ^ 64 /\ run 2 css = OutOfRange.
Proof.
  intros css.
  assert (H1 : ssize css + 1 < 2 ^ 64) by (vm_compute; reflexivity).
  split; [exact H1|].
  destruct (run_outcome_by_first_token css H1) as (p & tok & Hnew & Hc & Hbad & _).
  apply (Hbad ltac:(vm_compute in Hnew; injection Hnew as <-;
                    vm_compute in Hc; injection Hc as <-; reflexivity) 0%nat).
Defined.
